(** * Package flow: scripted packet flows over an abstract connection

    A shallow embedding of [transport/flow/flow.go]: the loopback [Pipe],
    the [Flow] builder, the synchronous executor [Test] and the
    asynchronous wrapper [TestAsync], together with the parts of the Go
    runtime and standard library the file calls ([select], channels,
    [fmt.Errorf] with [%v] and [%q], [strings.Contains], [time]). *)

From Stdlib Require Import ZArith NArith String Ascii List Lia Bool.
From stdpp Require Import base option list gmap strings.

Import ListNotations.
Local Open Scope string_scope.
Local Open Scope list_scope.
Local Open Scope Z_scope.

(** ** Go values used by the package *)

(** An [error] value.  The package only tests errors against [nil] and
    reads their message through [Error()]; [io.EOF] is kept apart from
    errors that merely carry the same text. *)
Inductive Error : Type :=
| io_EOF
| errorString (msg : string).

(** [err.Error()] *)
Definition Error_msg (e : Error) : string :=
  match e with
  | io_EOF => "EOF"
  | errorString msg => msg
  end.

(** [errors.New] *)
Definition errors_New (msg : string) : Error := errorString msg.

(** An interface value of type [error]: [None] is [nil]. *)
Abbreviation error := (option Error).

(** How a call ends: it returns, it panics, or it never returns (the
    goroutine stays blocked). *)
Inductive result (A : Type) : Type :=
| Return (a : A)
| Panic (msg : string)
| Block.
Arguments Return {A} a.
Arguments Panic {A} msg.
Arguments Block {A}.

Definition nil_dereference : string :=
  "runtime error: invalid memory address or nil pointer dereference".

(** ** [strings.Contains] *)

Fixpoint HasPrefix (s prefix : string) : bool :=
  match prefix, s with
  | EmptyString, _ => true
  | String p prefix', String c s' => if Ascii.eqb p c then HasPrefix s' prefix' else false
  | String _ _, EmptyString => false
  end.

Fixpoint Contains (s substr : string) : bool :=
  if HasPrefix s substr then true
  else match s with
       | EmptyString => false
       | String _ s' => Contains s' substr
       end.

(** ** [strconv.Quote], the [%q] verb of [fmt] on a string *)

Definition dquote : ascii := ascii_of_N 34.
Definition backslash : ascii := ascii_of_N 92.

Definition lowerhex (n : N) : ascii :=
  match String.get (N.to_nat n) "0123456789abcdef" with
  | Some c => c
  | None => "0"%char
  end.

(** The tables [isPrint16], [isNotPrint16], [isPrint32] and
    [isNotPrint32] of package [strconv], which say which runes above
    [U+00FF] are printable.  They belong to the Go library, not to this
    repository, and are taken as given. *)
Class UnicodeTables : Type := { isPrint_wide : N -> bool }.

(** [utf8.RuneError] *)
Definition RuneError : N := 65533.

(** The table [first] of package [utf8] together with [acceptRanges]:
    for the first byte of a sequence of several bytes, the length of the
    sequence and the bounds of its second byte; [None] for a byte that
    starts no such sequence. *)
Definition first (b : N) : option (nat * N * N) :=
  (if b <? 194 then None
   else if b <=? 223 then Some (2%nat, 128, 191)
   else if b =? 224 then Some (3%nat, 160, 191)
   else if b <=? 236 then Some (3%nat, 128, 191)
   else if b =? 237 then Some (3%nat, 128, 159)
   else if b <=? 239 then Some (3%nat, 128, 191)
   else if b =? 240 then Some (4%nat, 144, 191)
   else if b <=? 243 then Some (4%nat, 128, 191)
   else if b =? 244 then Some (4%nat, 128, 143)
   else None)%N.

(** A continuation byte: between [locb] and [hicb]. *)
Definition continuation (b : N) : bool := ((128 <=? b) && (b <=? 191))%N.

(** [utf8.DecodeRuneInString]: the rune at the head of [s] and its width
    in bytes; [(RuneError, 1)] for a byte that starts no valid encoding. *)
Definition DecodeRuneInString (s : string) : N * nat :=
  match s with
  | EmptyString => (RuneError, 0%nat)
  | String c0 t0 =>
      let s0 := N_of_ascii c0 in
      if (s0 <? 128)%N then (s0, 1%nat)
      else
        match first s0 with
        | None => (RuneError, 1%nat)
        | Some (sz, lo, hi) =>
            if (String.length s <? sz)%nat then (RuneError, 1%nat)
            else
              match t0 with
              | EmptyString => (RuneError, 1%nat)
              | String c1 t1 =>
                  let s1 := N_of_ascii c1 in
                  if ((s1 <? lo) || (hi <? s1))%N then (RuneError, 1%nat)
                  else if (sz <=? 2)%nat
                  then (N.lor (N.shiftl (N.land s0 31) 6) (N.land s1 63), 2%nat)
                  else
                    match t1 with
                    | EmptyString => (RuneError, 1%nat)
                    | String c2 t2 =>
                        let s2 := N_of_ascii c2 in
                        if negb (continuation s2) then (RuneError, 1%nat)
                        else if (sz <=? 3)%nat
                        then (N.lor (N.shiftl (N.land s0 15) 12)
                                (N.lor (N.shiftl (N.land s1 63) 6) (N.land s2 63)), 3%nat)
                        else
                          match t2 with
                          | EmptyString => (RuneError, 1%nat)
                          | String c3 _ =>
                              let s3 := N_of_ascii c3 in
                              if negb (continuation s3) then (RuneError, 1%nat)
                              else (N.lor (N.shiftl (N.land s0 7) 18)
                                      (N.lor (N.shiftl (N.land s1 63) 12)
                                         (N.lor (N.shiftl (N.land s2 63) 6) (N.land s3 63))),
                                    4%nat)
                          end
                    end
              end
        end
  end.

(** [strconv.IsPrint]: decided on the spot up to [U+00FF], by the tables
    above it. *)
Definition IsPrint `{UnicodeTables} (r : N) : bool :=
  (if r <=? 255 then
     if (32 <=? r) && (r <=? 126) then true
     else if (161 <=? r) && (r <=? 255) then negb (r =? 173)
     else false
   else isPrint_wide r)%N.

(** [appendEscapedRune] on a rune below [utf8.RuneSelf], that is, on one
    byte [c]. *)
Definition quote_byte (c : ascii) : string :=
  let n := N_of_ascii c in
  if ((n =? 34) || (n =? 92))%N then String backslash (String c EmptyString)
  else if ((32 <=? n) && (n <? 127))%N then String c EmptyString
  else match n with
       | 7%N => "\a"
       | 8%N => "\b"
       | 12%N => "\f"
       | 10%N => "\n"
       | 13%N => "\r"
       | 9%N => "\t"
       | 11%N => "\v"
       | _ => String backslash (String "x" (String (lowerhex (n / 16)) (String (lowerhex (n mod 16)) EmptyString)))
       end.

(** The hexadecimal digits of [r], [n] of them, from the digit of weight
    [16^(n-1)] down. *)
Fixpoint hex_digits (n : nat) (r : N) : string :=
  match n with
  | O => EmptyString
  | S k => String (lowerhex (N.land (N.shiftr r (4 * N.of_nat k)) 15)) (hex_digits k r)
  end.

(** [appendEscapedRune] on a rune [r] from [utf8.RuneSelf] up, decoded
    from the bytes [enc]: a printable rune is written as it is encoded,
    another one as [\u] with four digits or [\U] with eight. *)
Definition quote_wide `{UnicodeTables} (r : N) (enc : string) : string :=
  if IsPrint r then enc
  else if (r <? 65536)%N then String backslash (String "u" (hex_digits 4 r))
  else String backslash (String "U" (hex_digits 8 r)).

(** The loop of [quoteWith].  [skip] counts the bytes of [s] that belong
    to the rune just written. *)
Fixpoint quote_from `{UnicodeTables} (skip : nat) (s : string) : string :=
  match s with
  | EmptyString => EmptyString
  | String c t =>
      match skip with
      | S k => quote_from k t
      | O =>
          if (N_of_ascii c <? 128)%N then quote_byte c +:+ quote_from 0 t
          else
            let (r, width) := DecodeRuneInString s in
            if (width =? 1)%nat && (r =? RuneError)%N
            then String backslash (String "x" (String (lowerhex (N_of_ascii c / 16))
                   (String (lowerhex (N_of_ascii c mod 16)) EmptyString)))
                 +:+ quote_from 0 t
            else quote_wide r (substring 0 width s) +:+ quote_from (width - 1) t
      end
  end.

Definition strconv_Quote `{UnicodeTables} (s : string) : string :=
  String dquote (quote_from 0 s +:+ String dquote EmptyString).

(** A byte that [Quote] copies unchanged whatever follows it. *)
Definition plain_byte (c : ascii) : bool :=
  let n := N_of_ascii c in
  ((32 <=? n) && (n <? 127) && negb (n =? 34) && negb (n =? 92))%N.

Fixpoint plain (s : string) : bool :=
  match s with
  | EmptyString => true
  | String c s' => plain_byte c && plain s'
  end.

(** A string of bytes below [utf8.RuneSelf]. *)
Fixpoint ascii_only (s : string) : bool :=
  match s with
  | EmptyString => true
  | String c s' => (N_of_ascii c <? 128)%N && ascii_only s'
  end.

(** ** [select]

    [ready] lists, in source order, whether each case can proceed.  When
    none can, the goroutine parks ([None]); otherwise one of the ready
    cases is taken, and [pick] stands for the runtime's random draw
    among them. *)
Fixpoint ready_cases (ready : list bool) (i : nat) : list nat :=
  match ready with
  | [] => []
  | b :: ready' => (if b then [i] else []) ++ ready_cases ready' (S i)
  end.

Definition selectgo (ready : list bool) (pick : nat) : option nat :=
  let rs := ready_cases ready 0 in
  nth_error rs (pick mod length rs)%nat.

(** ** Channels *)

(** A buffered channel: [make(chan A, cap)]. *)
Record bchan (A : Type) : Type := mk_bchan { bcap : nat; buf : list A }.
Arguments mk_bchan {A} bcap buf.
Arguments bcap {A} b.
Arguments buf {A} b.

Definition make_bchan {A : Type} (cap : nat) : bchan A := mk_bchan cap [].

Definition bchan_can_send {A : Type} (c : bchan A) : bool :=
  (length (buf c) <? bcap c)%nat.

Definition bchan_send {A : Type} (v : A) (c : bchan A) : bchan A :=
  mk_bchan (bcap c) (buf c ++ [v]).

(** A [chan struct{}] as one goroutine sees it when it receives: the
    channel is closed, or some values are ready to be taken. *)
Record signal : Type := mk_signal { sig_closed : bool; sig_pending : nat }.

(** ** Calls that thread a state and may panic or block *)

Definition M (S A : Type) : Type := S -> result A * S.

Definition ret {S A : Type} (a : A) : M S A := fun st => (Return a, st).

Definition bind {S A B : Type} (m : M S A) (k : A -> M S B) : M S B :=
  fun st =>
    match m st with
    | (Return a, st') => k a st'
    | (Panic msg, st') => (Panic msg, st')
    | (Block, st') => (Block, st')
    end.

Definition lift {S A : Type} (r : result A) : M S A := fun st => (r, st).

Declare Scope go_scope.
Delimit Scope go_scope with go.
Notation "x <- m ;; k" := (bind m (fun x => k))
  (at level 100, m at next level, right associativity) : go_scope.
Notation "m ;;; k" := (bind m (fun _ => k))
  (at level 100, right associativity) : go_scope.


(** ** Packets

    Package [packet] is outside this repository.  A [GenericPacket] is an
    interface value; the executor calls its [String()] method and passes
    it to [fmt] with [%v], which prints a value with a [String()] method
    through that method. *)
Class GenericPacketImpl (P : Type) : Type := { Packet_String : P -> string }.

Section Flow.
Context {P : Type} `{GenericPacketImpl P} {X : Type} {tables : UnicodeTables}.

(** An interface value of type [packet.GenericPacket]: [None] is [nil]. *)
Definition GenericPacket : Type := option P.

(** [pkt.String()] on an interface value: calling a method of a nil
    interface panics. *)
Definition GenericPacket_String (pkt : GenericPacket) : result string :=
  match pkt with
  | Some p => Return (Packet_String p)
  | None => Panic nil_dereference
  end.

(** Everything outside the flows that a run can touch: the state [X] of
    the connection, of its peers and of whatever the callbacks capture;
    the clock, in nanoseconds; the signal channels. *)
Record World : Type := mk_World {
  ext : X;
  now : Z;
  chans : gmap nat signal
}.

(** All available action types. *)
Definition actionSend : N := 0.
Definition actionReceive : N := 1.
Definition actionSkip : N := 2.
Definition actionWait : N := 3.
Definition actionRun : N := 4.
Definition actionDelay : N := 5.
Definition actionClose : N := 6.
Definition actionEnd : N := 7.

(** An action is a step in a flow.  [fn] is a [func()]: a func value is
    a reference to a closure of the program, named here by a number;
    [ch] names a [chan struct{}]; both may be nil.  [duration] is a
    [time.Duration]. *)
Record action : Type := mk_action {
  kind : N;
  packet : GenericPacket;
  fn : option nat;
  ch : option nat;
  duration : Z
}.

(** A Flow is a sequence of actions. *)
Record Flow : Type := mk_Flow { actions : list action }.

(** What the code of the program can reach: the store of [Flow] objects
    ([*Flow] is a key; a nil pointer has no entry) and the world.  A
    callback or a method of a connection may hold a flow, the one being
    executed included, and call its builder methods. *)
Definition Store : Type := gmap nat Flow * World.

(** The closures of the program: what the func value of each number
    does when called. *)
Class Closures : Type := { closure : nat -> Store -> result unit * Store }.

(** The methods of a value implementing interface [Conn]. *)
Record ConnImpl : Type := mk_Conn {
  Conn_Send : GenericPacket -> Store -> result error * Store;
  Conn_Receive : Store -> result (GenericPacket * error) * Store;
  Conn_Close : Store -> result error * Store
}.

(** An interface value of type [Conn]: [None] is [nil]. *)
Definition Conn : Type := option ConnImpl.

(** What the executor asks of its surroundings, in the order it asks.
    This is a ghost record: the Go code keeps no such log, and no code of
    the program can reach it. *)
Inductive Event : Type :=
| EvSend (pkt : GenericPacket)
| EvReceive
| EvClose
| EvWait (c : option nat)
| EvRun
| EvDelay (d : Z).

(** The store of flows, the world, and the ghost log. *)
Record State : Type := mk_State {
  heap : gmap nat Flow;
  world : World;
  trace : list Event
}.

Definition log (e : Event) : M State unit :=
  fun st => (Return tt, mk_State (heap st) (world st) (trace st ++ [e])).

(** Run code that reaches the store of flows and the world. *)
Definition outside {A : Type} (op : Store -> result A * Store) : M State A :=
  fun st =>
    let (r, s) := op (heap st, world st) in
    (r, mk_State (fst s) (snd s) (trace st)).

(** Code that only reaches the world. *)
Definition on_world {A : Type} (op : World -> result A * World) (s : Store)
  : result A * Store :=
  let (r, w) := op (snd s) in (r, (fst s, w)).

Context {funcs : Closures}.

Local Open Scope go_scope.

(** *** Calls through the [Conn] interface *)

Definition conn_Send (conn : Conn) (pkt : GenericPacket) : M State error :=
  match conn with
  | Some c => log (EvSend pkt) ;;; outside (Conn_Send c pkt)
  | None => lift (Panic nil_dereference)
  end.

Definition conn_Receive (conn : Conn) : M State (GenericPacket * error) :=
  match conn with
  | Some c => log EvReceive ;;; outside (Conn_Receive c)
  | None => lift (Panic nil_dereference)
  end.

Definition conn_Close (conn : Conn) : M State error :=
  match conn with
  | Some c => log EvClose ;;; outside (Conn_Close c)
  | None => lift (Panic nil_dereference)
  end.

(** *** Runtime calls of the executor *)

(** [<-c] on a [chan struct{}]: a nil channel blocks forever; a pending
    value is taken; a closed channel yields at once; otherwise the
    goroutine stays blocked. *)
Definition signal_recv (c : option nat) (w : World) : result unit * World :=
  match c with
  | None => (Block, w)
  | Some i =>
      match chans w !! i with
      | None => (Block, w)
      | Some s =>
          match sig_pending s with
          | S n => (Return tt, mk_World (ext w) (now w) (<[i := mk_signal (sig_closed s) n]> (chans w)))
          | O => if sig_closed s then (Return tt, w) else (Block, w)
          end
      end
  end.

Definition chan_recv (c : option nat) : M State unit :=
  log (EvWait c) ;;; outside (on_world (signal_recv c)).

(** [fn()]: calling a nil func panics. *)
Definition call_fn (f : option nat) : M State unit :=
  match f with
  | Some g => log EvRun ;;; outside (closure g)
  | None => lift (Panic nil_dereference)
  end.

(** [time.Sleep(d)]: a negative or zero duration returns at once. *)
Definition sleep (d : Z) (w : World) : result unit * World :=
  (Return tt, mk_World (ext w) (if d <=? 0 then now w else now w + d) (chans w)).

Definition time_Sleep (d : Z) : M State unit :=
  log (EvDelay d) ;;; outside (on_world (sleep d)).

(** [fmt.Errorf] with the formats of this package, already applied. *)
Definition fmt_Errorf (msg : string) : error := Some (errorString msg).

(** *** The flow builder *)

(** [New] returns a new flow. *)
Definition New : M State nat :=
  fun st =>
    let f := fresh (dom (heap st)) in
    (Return f, mk_State (<[f := mk_Flow []]> (heap st)) (world st) (trace st)).

(** [add] will add the specified action. *)
Definition add (f : nat) (a : action) : M State unit :=
  fun st =>
    match heap st !! f with
    | Some fl => (Return tt, mk_State (<[f := mk_Flow (actions fl ++ [a])]> (heap st)) (world st) (trace st))
    | None => (Panic nil_dereference, st)
    end.

Definition Flow_Send (f : nat) (pkt : GenericPacket) : M State nat :=
  add f (mk_action actionSend pkt None None 0) ;;; ret f.

Definition Flow_Receive (f : nat) (pkt : GenericPacket) : M State nat :=
  add f (mk_action actionReceive pkt None None 0) ;;; ret f.

Definition Flow_Skip (f : nat) : M State nat :=
  add f (mk_action actionSkip None None None 0) ;;; ret f.

Definition Flow_Wait (f : nat) (c : option nat) : M State nat :=
  add f (mk_action actionWait None None c 0) ;;; ret f.

Definition Flow_Run (f : nat) (g : option nat) : M State nat :=
  add f (mk_action actionRun None g None 0) ;;; ret f.

Definition Flow_Delay (f : nat) (d : Z) : M State nat :=
  add f (mk_action actionDelay None None None d) ;;; ret f.

Definition Flow_Close (f : nat) : M State nat :=
  add f (mk_action actionClose None None None 0) ;;; ret f.

Definition Flow_End (f : nat) : M State nat :=
  add f (mk_action actionEnd None None None 0) ;;; ret f.

(** *** The synchronous executor *)

(** One turn of the loop of [Test]: the [switch] on the action kind.
    [Some e] means that [Test] returns [e] from inside the loop, [None]
    that the loop goes on. *)
Definition Test_case (conn : Conn) (a : action) : M State error :=
  if (kind a =? actionSend)%N then
    err <- conn_Send conn (packet a) ;;
    match err with
    | Some e => ret (fmt_Errorf ("error sending packet: " +:+ Error_msg e))
    | None => ret None
    end
  else if (kind a =? actionReceive)%N then
    r <- conn_Receive conn ;;
    match snd r with
    | Some e => ret (fmt_Errorf ("expected to receive a packet but got error: " +:+ Error_msg e))
    | None =>
        want <- lift (GenericPacket_String (packet a)) ;;
        got <- lift (GenericPacket_String (fst r)) ;;
        if String.eqb want got then ret None
        else ret (fmt_Errorf ("expected packet of " +:+ strconv_Quote want
                              +:+ " but got " +:+ strconv_Quote got))
    end
  else if (kind a =? actionSkip)%N then
    r <- conn_Receive conn ;;
    match snd r with
    | Some e => ret (fmt_Errorf ("expected to skip over a received packet but got error: " +:+ Error_msg e))
    | None => ret None
    end
  else if (kind a =? actionWait)%N then
    chan_recv (ch a) ;;; ret None
  else if (kind a =? actionRun)%N then
    call_fn (fn a) ;;; ret None
  else if (kind a =? actionDelay)%N then
    time_Sleep (duration a) ;;; ret None
  else if (kind a =? actionClose)%N then
    err <- conn_Close conn ;;
    match err with
    | Some e => ret (fmt_Errorf ("expected connection to close successfully but got error: " +:+ Error_msg e))
    | None => ret None
    end
  else if (kind a =? actionEnd)%N then
    r <- conn_Receive conn ;;
    match snd r with
    | Some e =>
        if negb (Contains (Error_msg e) "EOF")
        then ret (fmt_Errorf ("expected EOF but got " +:+ Error_msg e))
        else match fst r with
             | Some p => ret (fmt_Errorf ("expected no packet but got " +:+ Packet_String p))
             | None => ret None
             end
    | None =>
        match fst r with
        | Some p => ret (fmt_Errorf ("expected no packet but got " +:+ Packet_String p))
        | None => ret None
        end
    end
  else ret None.

(** [for _, action := range f.actions { ... }; return nil] *)
Fixpoint Test_range (conn : Conn) (acts : list action) : M State error :=
  match acts with
  | [] => ret None
  | a :: rest =>
      r <- Test_case conn a ;;
      match r with
      | Some e => ret (Some e)
      | None => Test_range conn rest
      end
  end.

(** [f.actions], read once when the [range] loop starts. *)
Definition load_actions (f : nat) : M State (list action) :=
  fun st =>
    match heap st !! f with
    | Some fl => (Return (actions fl), st)
    | None => (Panic nil_dereference, st)
    end.

(** [Test] starts the flow on the given [Conn]. *)
Definition Test (f : nat) (conn : Conn) : M State error :=
  acts <- load_actions f ;; Test_range conn acts.

(** *** The asynchronous executor *)

Definition timeout_error : Error :=
  errors_New "timed out waiting for flow to complete".

(** The goroutine started by [TestAsync].  On entering [select] Go
    evaluates, in source order, the channel of the receive case,
    [time.After(timeout)], and then the channel and the value of the
    send case, [f.Test(conn)]; only then does it look for a case that
    can proceed.  The timer case can proceed once the clock has reached
    the deadline, the send case while [errCh] has room.  The outcome is
    [errCh] as the goroutine leaves it. *)
Definition TestAsync_goroutine (f : nat) (conn : Conn) (timeout : Z) (pick : nat)
    (errCh : bchan error) : M State (bchan error) :=
  fun st =>
    let deadline := now (world st) + timeout in
    (v <- Test f conn ;;
     fun st' =>
       match selectgo [deadline <=? now (world st'); bchan_can_send errCh] pick with
       | Some O =>
           if bchan_can_send errCh
           then (Return (bchan_send (Some timeout_error) errCh), st')
           else (Block, st')
       | Some _ => (Return (bchan_send v errCh), st')
       | None =>
           let w := world st' in
           let st'' := mk_State (heap st') (mk_World (ext w) deadline (chans w)) (trace st') in
           if bchan_can_send errCh
           then (Return (bchan_send (Some timeout_error) errCh), st'')
           else (Block, st'')
       end) st.

(** [TestAsync] makes [errCh] with room for one value, starts the
    goroutine and returns [errCh]. *)
Definition TestAsync (f : nat) (conn : Conn) (timeout : Z) (pick : nat) : M State (bchan error) :=
  TestAsync_goroutine f conn timeout pick (make_bchan 1).

End Flow.

(** ** The loopback connection *)

Section Pipe.
Context {P : Type}.

(** How a call on a [Pipe] ends for the goroutine that made it. *)
Inductive Ret : Type :=
| RetSend (err : error)
| RetReceive (pkt : option P) (err : error)
| RetClose (err : error)
| RetPanic (msg : string).

(** An unbuffered [chan packet.GenericPacket]: the goroutines parked on
    it, in the order in which they parked, senders with the value they
    offer. *)
Record hchan : Type := mk_hchan {
  sendq : list (nat * option P);
  recvq : list nat
}.

(** The [Pipe] pipes packets from [Send] to [Receive].  Of [close], a
    [chan struct{}] that is never sent on, only whether it has been
    closed matters; the goroutines waiting on it are those parked on
    [pipe], since every wait is a [select] over both channels. *)
Record Pipe : Type := mk_Pipe {
  pipe : hchan;
  close : bool
}.

(** [NewPipe] returns a new [Pipe]. *)
Definition NewPipe : Pipe := mk_Pipe (mk_hchan [] []) false.

(** The parked goroutine that a call is paired with.  Go does not say
    which of several goroutines blocked on a channel is served; [pick]
    stands for the draws of the runtime, and its half chooses the
    goroutine. *)
Definition peer_index {A : Type} (pick : nat) (q : list A) : nat :=
  ((pick / 2) mod length q)%nat.

(** [Send] by goroutine [g].  The result is the new state and the calls
    that end at this step, with their results. *)
Definition Pipe_Send (g : nat) (pkt : option P) (pick : nat) (conn : Pipe) : Pipe * list (nat * Ret) :=
  match selectgo [negb (bool_decide (recvq (pipe conn) = [])); close conn] pick with
  | Some O =>
      let i := peer_index pick (recvq (pipe conn)) in
      match recvq (pipe conn) !! i with
      | Some r =>
          (mk_Pipe (mk_hchan (sendq (pipe conn)) (delete i (recvq (pipe conn)))) (close conn),
           [(g, RetSend None); (r, RetReceive pkt None)])
      | None => (conn, [])
      end
  | Some _ => (conn, [(g, RetSend (Some (errors_New "already closed")))])
  | None => (mk_Pipe (mk_hchan (sendq (pipe conn) ++ [(g, pkt)]) (recvq (pipe conn))) (close conn), [])
  end.

(** [Receive] by goroutine [g]. *)
Definition Pipe_Receive (g : nat) (pick : nat) (conn : Pipe) : Pipe * list (nat * Ret) :=
  match selectgo [negb (bool_decide (sendq (pipe conn) = [])); close conn] pick with
  | Some O =>
      let i := peer_index pick (sendq (pipe conn)) in
      match sendq (pipe conn) !! i with
      | Some (s, pkt) =>
          (mk_Pipe (mk_hchan (delete i (sendq (pipe conn))) (recvq (pipe conn))) (close conn),
           [(g, RetReceive pkt None); (s, RetSend None)])
      | None => (conn, [])
      end
  | Some _ => (conn, [(g, RetReceive None (Some io_EOF))])
  | None => (mk_Pipe (mk_hchan (sendq (pipe conn)) (recvq (pipe conn) ++ [g])) (close conn), [])
  end.

(** [Close] by goroutine [g]: closing a closed channel panics; closing
    an open one wakes every goroutine parked in a [select] on it. *)
Definition Pipe_Close (g : nat) (conn : Pipe) : Pipe * list (nat * Ret) :=
  if close conn then (conn, [(g, RetPanic "close of closed channel")])
  else (mk_Pipe (mk_hchan [] []) true,
        (map (fun s => (fst s, RetSend (Some (errors_New "already closed")))) (sendq (pipe conn))
         ++ map (fun r => (r, RetReceive None (Some io_EOF))) (recvq (pipe conn))
         ++ [(g, RetClose None)])%list).

(** A call made on the pipe by some goroutine. *)
Inductive Call : Type :=
| CallSend (g : nat) (pkt : option P) (pick : nat)
| CallReceive (g : nat) (pick : nat)
| CallClose (g : nat).

Definition Pipe_step (c : Call) (conn : Pipe) : Pipe * list (nat * Ret) :=
  match c with
  | CallSend g pkt pick => Pipe_Send g pkt pick conn
  | CallReceive g pick => Pipe_Receive g pick conn
  | CallClose g => Pipe_Close g conn
  end.

(** The calls of a history, one after the other. *)
Fixpoint Pipe_run (calls : list Call) (conn : Pipe) : Pipe * list (nat * Ret) :=
  match calls with
  | [] => (conn, [])
  | c :: rest =>
      let (conn1, out1) := Pipe_step c conn in
      let (conn2, out2) := Pipe_run rest conn1 in
      (conn2, (out1 ++ out2)%list)
  end.

Definition is_RetClose (r : nat * Ret) : bool :=
  match snd r with
  | RetClose _ => true
  | _ => false
  end.

(** Once [close] has been closed, no goroutine is parked on [pipe]. *)
Definition Pipe_inv (conn : Pipe) : Prop :=
  close conn = true -> sendq (pipe conn) = [] /\ recvq (pipe conn) = [].

(** The calls of [Close] that returned, among the calls that ended. *)
Definition closes_returned (out : list (nat * Ret)) : nat :=
  length (List.filter is_RetClose out).

End Pipe.

(** ** The pipe behind the [Conn] interface *)

Section PipeConn.
Context {P : Type}.

(** The result of goroutine [g] among the calls that ended. *)
Definition ended (g : nat) (out : list (nat * @Ret P)) : option Ret :=
  snd <$> List.find (fun x => Nat.eqb (fst x) g) out.

(** The pipe as the goroutine of a flow finds it, and the calls that the
    other goroutines of the program will still make on it, in the order
    in which they reach it; they are taken to reach it while the
    goroutine of the flow is parked.  An empty list is a program in which
    nobody else calls the pipe again. *)
Record PipeWorld : Type := mk_PipeWorld {
  the_pipe : @Pipe P;
  peers : list (@Call P)
}.

(** The goroutine [g] is parked: the calls of its peers go on until one
    of them ends the call of [g].  If they run out first, the call of [g]
    never ends. *)
Fixpoint await (g : nat) (calls : list (@Call P)) (conn : @Pipe P)
  : option (@Ret P) * PipeWorld :=
  match calls with
  | [] => (None, mk_PipeWorld conn [])
  | c :: rest =>
      let (conn', out) := Pipe_step c conn in
      match ended g out with
      | Some r => (Some r, mk_PipeWorld conn' rest)
      | None => await g rest conn'
      end
  end.

(** A call [c] of goroutine [g], up to its end. *)
Definition Pipe_call (g : nat) (c : @Call P) (x : PipeWorld) : option (@Ret P) * PipeWorld :=
  let (conn, out) := Pipe_step c (the_pipe x) in
  match ended g out with
  | Some r => (Some r, mk_PipeWorld conn (peers x))
  | None => await g (peers x) conn
  end.

(** [*Pipe] as a [Conn], for the goroutine [g] that runs a flow on it. *)
Definition Pipe_Conn (g pick : nat) : @ConnImpl P PipeWorld :=
  mk_Conn
    (fun pkt => on_world (fun w =>
       let (r, x) := Pipe_call g (CallSend g pkt pick) (ext w) in
       (match r with
        | Some (RetSend err) => Return err
        | Some (RetPanic msg) => Panic msg
        | _ => Block
        end, mk_World x (now w) (chans w))))
    (on_world (fun w =>
       let (r, x) := Pipe_call g (CallReceive g pick) (ext w) in
       (match r with
        | Some (RetReceive pkt err) => Return (pkt, err)
        | Some (RetPanic msg) => Panic msg
        | _ => Block
        end, mk_World x (now w) (chans w))))
    (on_world (fun w =>
       let (r, x) := Pipe_call g (CallClose g) (ext w) in
       (match r with
        | Some (RetClose err) => Return err
        | Some (RetPanic msg) => Panic msg
        | _ => Block
        end, mk_World x (now w) (chans w)))).

End PipeConn.

(** ** Vocabulary of the statements *)

Section Script.
Context {P : Type} `{GenericPacketImpl P} {X : Type} {tables : UnicodeTables}
  {funcs : @Closures P X}.

(** A call of one of the eight builder methods, with its arguments. *)
Inductive BuilderCall : Type :=
| BSend (pkt : @GenericPacket P)
| BReceive (pkt : @GenericPacket P)
| BSkip
| BWait (c : option nat)
| BRun (g : option nat)
| BDelay (d : Z)
| BClose
| BEnd.

Definition invoke (f : nat) (b : BuilderCall) : M (@State P X) nat :=
  match b with
  | BSend pkt => Flow_Send f pkt
  | BReceive pkt => Flow_Receive f pkt
  | BSkip => Flow_Skip f
  | BWait c => Flow_Wait f c
  | BRun g => Flow_Run f g
  | BDelay d => Flow_Delay f d
  | BClose => Flow_Close f
  | BEnd => Flow_End f
  end.

(** Chained construction: each method is called on the flow that the
    call before it returned. *)
Fixpoint chain (f : nat) (bs : list BuilderCall) : M (@State P X) nat :=
  match bs with
  | [] => ret f
  | b :: rest => bind (invoke f b) (fun f' => chain f' rest)
  end.

(** The kind that corresponds to a builder method. *)
Definition kind_of (b : BuilderCall) : N :=
  match b with
  | BSend _ => actionSend
  | BReceive _ => actionReceive
  | BSkip => actionSkip
  | BWait _ => actionWait
  | BRun _ => actionRun
  | BDelay _ => actionDelay
  | BClose => actionClose
  | BEnd => actionEnd
  end.

(** The action a builder call is expected to append. *)
Definition built (b : BuilderCall) : @action P :=
  match b with
  | BSend pkt => mk_action actionSend pkt None None 0
  | BReceive pkt => mk_action actionReceive pkt None None 0
  | BSkip => mk_action actionSkip None None None 0
  | BWait c => mk_action actionWait None None c 0
  | BRun g => mk_action actionRun None g None 0
  | BDelay d => mk_action actionDelay None None None d
  | BClose => mk_action actionClose None None None 0
  | BEnd => mk_action actionEnd None None None 0
  end.

(** The request an action makes when it is executed. *)
Definition events_of (a : @action P) : list (@Event P) :=
  if (kind a =? actionSend)%N then [EvSend (packet a)]
  else if (kind a =? actionReceive)%N then [EvReceive]
  else if (kind a =? actionSkip)%N then [EvReceive]
  else if (kind a =? actionWait)%N then [EvWait (ch a)]
  else if (kind a =? actionRun)%N then [EvRun]
  else if (kind a =? actionDelay)%N then [EvDelay (duration a)]
  else if (kind a =? actionClose)%N then [EvClose]
  else if (kind a =? actionEnd)%N then [EvReceive]
  else [].

(** Every action of the list is executed, each from the state its
    predecessor left, and each succeeds. *)
Inductive all_succeed (conn : @Conn P X) : list action -> State -> State -> Prop :=
| all_succeed_nil st : all_succeed conn [] st st
| all_succeed_cons a rest st st1 st2 :
    Test_case conn a st = (Return None, st1) ->
    all_succeed conn rest st1 st2 ->
    all_succeed conn (a :: rest) st st2.





End Script.

(** ** Further vocabulary *)

Section PipeAccounts.
Context {P : Type}.

(** A [Send] that returned nil. *)
Definition is_sent (r : nat * @Ret P) : bool :=
  match snd r with
  | RetSend None => true
  | _ => false
  end.

(** A [Receive] that returned without error. *)
Definition is_received (r : nat * @Ret P) : bool :=
  match snd r with
  | RetReceive _ None => true
  | _ => false
  end.

Definition sends_returned (out : list (nat * @Ret P)) : nat :=
  length (List.filter is_sent out).

Definition receives_returned (out : list (nat * @Ret P)) : nat :=
  length (List.filter is_received out).

(** The goroutines parked on the pipe. *)
Definition parked (conn : @Pipe P) : nat :=
  (length (sendq (pipe conn)) + length (recvq (pipe conn)))%nat.

End PipeAccounts.

Section Scripts.
Context {P : Type}.

(** An action that asks nothing of the connection. *)
Definition quiet (a : @action P) : bool :=
  ((kind a =? actionWait) || (kind a =? actionRun) || (kind a =? actionDelay))%N.

(** The time [time.Sleep(d)] takes. *)
Definition slept (d : Z) : Z := if d <=? 0 then 0 else d.

Definition total_delay (acts : list (@action P)) : Z :=
  fold_right (fun a t => slept (duration a) + t) 0 acts.

(** The formats of [fmt.Errorf] in [Test], up to their first verb. *)
Definition error_prefixes : list string :=
  [ "error sending packet: ";
    "expected to receive a packet but got error: ";
    "expected packet of ";
    "expected to skip over a received packet but got error: ";
    "expected connection to close successfully but got error: ";
    "expected EOF but got ";
    "expected no packet but got " ].

End Scripts.

(** ** Sample data *)

(** A packet that is its own rendering. *)
#[local] Instance rendering_packet : GenericPacketImpl string := {| Packet_String := fun s => s |}.

(** A stand-in for the tables of [strconv], which holds no rune above
    [U+00FF] to be printable.  The sample renderings have no such rune:
    their quoted forms are the same under any tables. *)
#[local] Instance sample_tables : UnicodeTables := {| isPrint_wide := fun _ => false |}.

(** A program whose closures do nothing. *)
#[local] Instance idle_closures {P X : Type} : @Closures P X :=
  {| closure := fun _ s => (Return tt, s) |}.

(** A world that holds a pipe on which nobody else will call, at time
    zero, without signal channels. *)
Definition pipe_world (conn : @Pipe string) : @World (@PipeWorld string) :=
  mk_World (mk_PipeWorld conn []) 0 ∅.

(** A state with one flow, at address [0]. *)
Definition one_flow (acts : list (@action string)) (conn : @Pipe string)
  : @State string (@PipeWorld string) :=
  mk_State {[ 0%nat := mk_Flow acts ]} (pipe_world conn) [].

(** A pipe on which goroutine [1] is parked in [Send(pkt)]. *)
Definition pipe_offering (pkt : string) : @Pipe string :=
  fst (Pipe_Send 1 (Some pkt) 0 NewPipe).

(** A connection whose [Receive] always returns the same pair, whose
    [Send] and [Close] return nil: a stand-in for transports other than
    the pipe. *)
Definition fixed_conn (r : option string * error) : @ConnImpl string unit :=
  mk_Conn (fun _ s => (Return None, s)) (fun s => (Return r, s)) (fun s => (Return None, s)).

Definition unit_state (acts : list (@action string)) : @State string unit :=
  mk_State {[ 0%nat := mk_Flow acts ]} (mk_World tt 0 ∅) [].

(** A rendering with a quoted part: the topic [a] between double quotes,
    after [Topic=]. *)
Definition quoted_rendering : string :=
  "Topic=" +:+ String dquote ("a" +:+ String dquote EmptyString).

(** The rendering [cafe] with an acute accent on its last letter, in
    UTF-8: the letter takes the two bytes [0xC3 0xA9]. *)
Definition accented_rendering : string :=
  "caf" +:+ String (ascii_of_N 195) (String (ascii_of_N 169) EmptyString).


(** * Properties *)

(** ** Strings *)

Lemma HasPrefix_app (p s : string) : HasPrefix (p +:+ s) p = true.
Proof.
  induction p as [|c p IH]; simpl.
  - by destruct s.
  - by rewrite Ascii.eqb_refl.
Qed.

Lemma HasPrefix_inv (s p : string) : HasPrefix s p = true -> exists t, s = p +:+ t.
Proof.
  revert s. induction p as [|c p IH]; intros s Hp.
  - by exists s.
  - destruct s as [|d s]; simpl in Hp; [done|].
    destruct (Ascii.eqb_spec c d) as [->|]; [|done].
    destruct (IH _ Hp) as [t ->]. by exists t.
Qed.

Lemma string_app_assoc (a b c : string) : (a +:+ b) +:+ c = a +:+ (b +:+ c).
Proof.
  induction a as [|x a IH]; [done|].
  change (String x ((a +:+ b) +:+ c) = String x (a +:+ (b +:+ c))). by rewrite IH.
Qed.

Lemma Contains_prefix (s p : string) : HasPrefix s p = true -> Contains s p = true.
Proof. intros Hp. destruct s; cbn [Contains]; by rewrite Hp. Qed.

Lemma Contains_app (a s b : string) : Contains (a +:+ s +:+ b) s = true.
Proof.
  induction a as [|c a IH].
  - change (EmptyString +:+ s +:+ b) with (s +:+ b). apply Contains_prefix, HasPrefix_app.
  - simpl. rewrite IH. by repeat case_match.
Qed.

Lemma Contains_inv (s sub : string) :
  Contains s sub = true -> exists a b, s = a +:+ sub +:+ b.
Proof.
  induction s as [|c s IH]; cbn [Contains].
  - destruct (HasPrefix EmptyString sub) eqn:Hp; [|done]. intros _.
    destruct (HasPrefix_inv _ _ Hp) as [t Ht]. by exists EmptyString, t.
  - destruct (HasPrefix (String c s) sub) eqn:Hp.
    + intros _. destruct (HasPrefix_inv _ _ Hp) as [t Ht]. by exists EmptyString, t.
    + intros Hc. destruct (IH Hc) as (a & b & ->). by exists (String c a), b.
Qed.

Lemma string_app_nil_r (s : string) : s +:+ EmptyString = s.
Proof.
  induction s as [|c s IH]; [done|].
  change (String c (s +:+ EmptyString) = String c s). by rewrite IH.
Qed.

Lemma Contains_trans (t q s : string) :
  Contains t q = true -> Contains q s = true -> Contains t s = true.
Proof.
  intros (a & b & ->)%Contains_inv (x & y & ->)%Contains_inv.
  rewrite !string_app_assoc, <- (string_app_assoc a x). apply Contains_app.
Qed.

Lemma Contains_suffix (a s : string) : Contains (a +:+ s) s = true.
Proof. rewrite <- (string_app_nil_r s) at 1. apply Contains_app. Qed.

Lemma quote_byte_plain (c : ascii) : plain_byte c = true -> quote_byte c = String c EmptyString.
Proof.
  unfold plain_byte, quote_byte. cbv zeta.
  destruct (N_of_ascii c =? 34)%N, (N_of_ascii c =? 92)%N; simpl;
    rewrite ?andb_false_r; try done.
  rewrite !andb_true_r. by intros ->.
Qed.

Lemma plain_byte_ascii (c : ascii) : plain_byte c = true -> (N_of_ascii c <? 128)%N = true.
Proof.
  unfold plain_byte. cbv zeta. intros Hp.
  apply andb_true_iff in Hp. destruct Hp as [Hp _].
  apply andb_true_iff in Hp. destruct Hp as [Hp _].
  apply andb_true_iff in Hp. destruct Hp as [_ Hp].
  apply N.ltb_lt in Hp. apply N.ltb_lt. lia.
Qed.

Lemma quote_from_plain `{UnicodeTables} (s : string) : plain s = true -> quote_from 0 s = s.
Proof.
  induction s as [|c s IH]; simpl; [done|].
  intros [Hc Hs]%andb_true_iff.
  rewrite (plain_byte_ascii c Hc), (quote_byte_plain c Hc), (IH Hs). reflexivity.
Qed.

Lemma strconv_Quote_plain `{UnicodeTables} (s : string) :
  plain s = true -> strconv_Quote s = String dquote (s +:+ String dquote EmptyString).
Proof. intros Hs. unfold strconv_Quote. by rewrite quote_from_plain. Qed.

(** On a string of ASCII bytes the tables of [strconv] play no part. *)
Lemma quote_from_ascii_tables (t1 t2 : UnicodeTables) (s : string) :
  ascii_only s = true -> @quote_from t1 0 s = @quote_from t2 0 s.
Proof.
  induction s as [|c s IH]; simpl; [done|].
  intros [Hc Hs]%andb_true_iff. by rewrite Hc, (IH Hs).
Qed.

Lemma strconv_Quote_ascii_tables (t1 t2 : UnicodeTables) (s : string) :
  ascii_only s = true -> @strconv_Quote t1 s = @strconv_Quote t2 s.
Proof. intros Hs. unfold strconv_Quote. by rewrite (quote_from_ascii_tables t1 t2 s Hs). Qed.

(** ** [select] *)

Lemma selectgo_only_second (pick : nat) : selectgo [false; true] pick = Some 1%nat.
Proof.
  unfold selectgo. change (ready_cases [false; true] 0) with [1%nat].
  change (length [1%nat]) with 1%nat. by rewrite Nat.mod_1_r.
Qed.

Lemma selectgo_only_first (pick : nat) : selectgo [true; false] pick = Some 0%nat.
Proof.
  unfold selectgo. change (ready_cases [true; false] 0) with [0%nat].
  change (length [0%nat]) with 1%nat. by rewrite Nat.mod_1_r.
Qed.

Lemma selectgo_none (pick : nat) : selectgo [false; false] pick = None.
Proof.
  unfold selectgo. change (ready_cases [false; false] 0) with (@nil nat).
  by destruct (pick mod _)%nat.
Qed.

Lemma selectgo_both (pick : nat) :
  selectgo [true; true] pick = Some 0%nat \/ selectgo [true; true] pick = Some 1%nat.
Proof.
  unfold selectgo. change (ready_cases [true; true] 0) with [0%nat; 1%nat].
  change (length [0%nat; 1%nat]) with 2%nat.
  assert (Hlt : (pick mod 2 < 2)%nat) by (apply Nat.mod_upper_bound; lia).
  destruct (pick mod 2)%nat as [|[|n]]; [by left|by right|lia].
Qed.

(** ** The builder *)

Section BuilderProperties.
Context {P : Type} `{GenericPacketImpl P} {X : Type}.
Implicit Types (st : @State P X) (fl : @Flow P) (b : @BuilderCall P).

Lemma add_appends (f : nat) fl (a : action) st :
  heap st !! f = Some fl ->
  add f a st = (Return tt, mk_State (<[f := mk_Flow (actions fl ++ [a])]> (heap st)) (world st) (trace st)).
Proof. intros Hf. unfold add. by rewrite Hf. Qed.

Lemma invoke_appends (f : nat) fl b st :
  heap st !! f = Some fl ->
  invoke f b st
  = (Return f, mk_State (<[f := mk_Flow (actions fl ++ [built b])]> (heap st)) (world st) (trace st)).
Proof.
  intros Hf.
  destruct b; simpl;
    unfold Flow_Send, Flow_Receive, Flow_Skip, Flow_Wait, Flow_Run, Flow_Delay,
      Flow_Close, Flow_End, bind;
    by rewrite (add_appends _ _ _ _ Hf).
Qed.

Lemma chain_appends (f : nat) (bs : list BuilderCall) : forall fl st,
  heap st !! f = Some fl ->
  chain f bs st
  = (Return f, mk_State (<[f := mk_Flow (actions fl ++ map built bs)]> (heap st)) (world st) (trace st)).
Proof.
  induction bs as [|b bs IH]; intros fl st Hf.
  - simpl. unfold ret. rewrite app_nil_r. destruct fl as [acts]; simpl.
    rewrite insert_id by done. by destruct st.
  - simpl. unfold bind. rewrite (invoke_appends _ _ _ _ Hf).
    erewrite IH by (simpl; apply lookup_insert_eq). simpl.
    by rewrite insert_insert_eq, <- app_assoc.
Qed.

(** C7. On a flow [f] holding [fl], each of [Send], [Receive], [Skip],
    [Wait], [Run], [Delay], [Close] and [End], whatever its argument,
    returns [f] itself and leaves a state in which [f] holds the
    actions of [fl] followed by one action of the kind of the method,
    carrying the argument; the other flows, the world and the log of
    requests are as before.  A chain of such calls, each on the flow
    the one before returned, appends their actions in call order. *)
Theorem builder_appends_one_action (f : nat) fl st :
  heap st !! f = Some fl ->
  (forall b,
      invoke f b st
      = (Return f, mk_State (<[f := mk_Flow (actions fl ++ [built b])]> (heap st)) (world st) (trace st))
      /\ kind (built b) = kind_of b
      /\ forall f', f' <> f -> (<[f := mk_Flow (actions fl ++ [built b])]> (heap st)) !! f' = heap st !! f')
  /\ (forall bs,
      chain f bs st
      = (Return f, mk_State (<[f := mk_Flow (actions fl ++ map built bs)]> (heap st)) (world st) (trace st))).
Proof.
  intros Hf. split.
  - intros b. split; [by apply invoke_appends|]. split; [by destruct b|].
    intros f' Hne. by rewrite lookup_insert_ne.
  - intros bs. by apply chain_appends.
Qed.

End BuilderProperties.

(** ** The synchronous executor *)

Section ExecutorProperties.
Context {P : Type} `{GenericPacketImpl P} {X : Type} {tables : UnicodeTables}
  {funcs : @Closures P X}.
Implicit Types (st : @State P X) (conn : @Conn P X) (a : @action P)
  (c : @ConnImpl P X) (w : @World X) (s : @Store P X).

(** *** The store of flows is only read *)














Lemma Test_unfold (f : nat) conn st (fl : Flow) :
  heap st !! f = Some fl -> Test f conn st = Test_range conn (actions fl) st.
Proof. intros Hf. unfold Test, bind, load_actions. by rewrite Hf. Qed.



(** C10. On the flow that [New] has just returned, [Test] returns nil
    and leaves the state as [New] left it: no request is logged and the
    world, with the connection in it, is untouched.  [New] itself logs
    nothing and does not touch the world. *)
Theorem Test_new_flow conn st :
  bind New (fun f => Test f conn) st = (Return None, snd (New st))
  /\ trace (snd (New st)) = trace st
  /\ world (snd (New st)) = world st.
Proof.
  split; [|done].
  unfold bind, New, Test, load_actions, bind; simpl.
  by rewrite lookup_insert_eq.
Qed.


(** *** One turn of the loop *)

Ltac exec_unfold :=
  unfold Test_case, events_of, conn_Send, conn_Receive, conn_Close, chan_recv,
    call_fn, time_Sleep, bind, ret, lift, log, outside, on_world, fmt_Errorf,
    GenericPacket_String.

Ltac exec_cases :=
  exec_unfold; simpl; repeat (case_match; simpl in *; simplify_eq); try done.

Lemma Test_case_trace conn a st r st' :
  Test_case conn a st = (Return r, st') -> trace st' = trace st ++ events_of a.
Proof.
  revert r st'. exec_cases; intros r st' Heq; simplify_eq; simpl; try done.
  by rewrite app_nil_r.
Qed.


(** *** The loop *)

Lemma all_succeed_trace conn (acts : list action) st st' :
  all_succeed conn acts st st' -> trace st' = trace st ++ flat_map events_of acts.
Proof.
  induction 1 as [st|a rest st st1 st2 Ha _ IH]; simpl.
  - by rewrite app_nil_r.
  - by rewrite IH, (Test_case_trace _ _ _ _ _ Ha), app_assoc.
Qed.

Lemma Test_range_app conn (pre rest : list action) st st1 :
  all_succeed conn pre st st1 ->
  Test_range conn (pre ++ rest) st = Test_range conn rest st1.
Proof.
  induction 1 as [st|a pre st st1 st2 Ha _ IH]; simpl; [done|].
  unfold bind at 1. by rewrite Ha.
Qed.

Lemma Test_range_fails conn a (post : list action) st e st' :
  Test_case conn a st = (Return (Some e), st') ->
  Test_range conn (a :: post) st = (Return (Some e), st').
Proof. intros Ha. simpl. unfold bind. by rewrite Ha. Qed.

Lemma Test_range_inv conn (acts : list action) : forall st r st',
  Test_range conn acts st = (Return r, st') ->
  (r = None /\ all_succeed conn acts st st')
  \/ (exists e pre a post st1,
        r = Some e /\ acts = pre ++ a :: post /\ all_succeed conn pre st st1
        /\ Test_case conn a st1 = (Return (Some e), st')).
Proof.
  induction acts as [|a rest IH]; intros st r st' Hrun; simpl in Hrun.
  - unfold ret in Hrun. simplify_eq. left. split; [done|constructor].
  - unfold bind in Hrun.
    destruct (Test_case conn a st) as [[[e|]|msg|] st1] eqn:Ha; simplify_eq.
    + unfold ret in Hrun. simplify_eq. right.
      exists e, [], a, rest, st. repeat split; [constructor|done].
    + destruct (IH _ _ _ Hrun) as [[-> Hall]|(e & pre & b & post & st2 & -> & -> & Hall & Hb)].
      * left. split; [done|]. by econstructor.
      * right. exists e, (a :: pre), b, post, st2.
        repeat split; [by econstructor|done].
Qed.

(** C3. [Test] goes through the actions of the flow in the order in
    which they were appended, each action starting from the state the
    one before it left.  If the actions of a prefix all succeed and the
    next one fails with an error, [Test] returns that very error, in the
    state that action left: the requests made are those of the prefix
    and of the failing action, in order, and nothing else (no later
    action, no close).  If all actions succeed, [Test] returns nil after
    the requests of all of them, in order.  Every return of [Test] is of
    one of these two forms. *)
Theorem Test_runs_actions_in_order (f : nat) (fl : Flow) conn st :
  heap st !! f = Some fl ->
  (forall pre a post st1 st2 e,
      actions fl = pre ++ a :: post ->
      all_succeed conn pre st st1 ->
      Test_case conn a st1 = (Return (Some e), st2) ->
      Test f conn st = (Return (Some e), st2)
      /\ trace st2 = trace st ++ flat_map events_of (pre ++ [a]))
  /\ (forall st',
      all_succeed conn (actions fl) st st' ->
      Test f conn st = (Return None, st')
      /\ trace st' = trace st ++ flat_map events_of (actions fl))
  /\ (forall r st',
      Test f conn st = (Return r, st') ->
      (r = None /\ all_succeed conn (actions fl) st st')
      \/ (exists e pre a post st1,
            r = Some e /\ actions fl = pre ++ a :: post /\ all_succeed conn pre st st1
            /\ Test_case conn a st1 = (Return (Some e), st'))).
Proof.
  intros Hf. rewrite (Test_unfold f conn st fl Hf). split; [|split].
  - intros pre a post st1 st2 e Hacts Hpre Ha. split.
    + rewrite Hacts, (Test_range_app _ _ _ _ _ Hpre). by apply Test_range_fails.
    + rewrite flat_map_app, app_assoc, <- (all_succeed_trace _ _ _ _ Hpre). simpl.
      by rewrite app_nil_r, (Test_case_trace _ _ _ _ _ Ha).
  - intros st' Hall. split; [|exact (all_succeed_trace _ _ _ _ Hall)].
    rewrite <- (app_nil_r (actions fl)). by rewrite (Test_range_app _ _ _ _ _ Hall).
  - apply Test_range_inv.
Qed.


(** *** The [receive] and [end] actions *)

Lemma conn_Receive_returns c st r s' :
  Conn_Receive c (heap st, world st) = (r, s') ->
  conn_Receive (Some c) st = (r, mk_State (fst s') (snd s') (trace st ++ [EvReceive])).
Proof. intros Hr. unfold conn_Receive, bind, log, outside. simpl. by rewrite Hr. Qed.

Lemma receive_case conn a :
  kind a = actionReceive ->
  Test_case conn a
  = bind (conn_Receive conn) (fun r =>
      match snd r with
      | Some e => ret (fmt_Errorf ("expected to receive a packet but got error: " +:+ Error_msg e))
      | None =>
          bind (lift (GenericPacket_String (packet a))) (fun want =>
          bind (lift (GenericPacket_String (fst r))) (fun got =>
          if String.eqb want got then ret None
          else ret (fmt_Errorf ("expected packet of " +:+ strconv_Quote want
                                +:+ " but got " +:+ strconv_Quote got))))
      end).
Proof. intros Hk. unfold Test_case. by rewrite Hk. Qed.

Lemma end_case conn a :
  kind a = actionEnd ->
  Test_case conn a
  = bind (conn_Receive conn) (fun r =>
      match snd r with
      | Some e =>
          if negb (Contains (Error_msg e) "EOF")
          then ret (fmt_Errorf ("expected EOF but got " +:+ Error_msg e))
          else match fst r with
               | Some p => ret (fmt_Errorf ("expected no packet but got " +:+ Packet_String p))
               | None => ret None
               end
      | None =>
          match fst r with
          | Some p => ret (fmt_Errorf ("expected no packet but got " +:+ Packet_String p))
          | None => ret None
          end
      end).
Proof. intros Hk. unfold Test_case. by rewrite Hk. Qed.

(** C4 (as amended).  A [receive] action makes one [Receive] request.
    If [Receive] returns an error, the action fails with "expected to
    receive a packet but got error: " followed by the message of that
    error.  If it returns a packet with no error, the action succeeds
    exactly when the rendering of the expected packet equals that of the
    received one; otherwise it fails with "expected packet of X but got
    Y", where X and Y are the two renderings as [%q] quotes them.  The
    message contains both quoted renderings, and it contains a rendering
    as it stands when that rendering is made of printable ASCII
    characters other than the double quote and the backslash. *)
Theorem receive_action_compares_renderings conn c a st pkt err s' :
  kind a = actionReceive ->
  conn = Some c ->
  Conn_Receive c (heap st, world st) = (Return (pkt, err), s') ->
  let st' := mk_State (fst s') (snd s') (trace st ++ [EvReceive]) in
  (forall e', err = Some e' ->
      Test_case conn a st
      = (Return (fmt_Errorf ("expected to receive a packet but got error: " +:+ Error_msg e')), st'))
  /\ (forall e p, err = None -> packet a = Some e -> pkt = Some p ->
      let want := Packet_String e in
      let got := Packet_String p in
      let msg := "expected packet of " +:+ strconv_Quote want +:+ " but got " +:+ strconv_Quote got in
      (Test_case conn a st = (Return None, st') <-> want = got)
      /\ (want <> got ->
          Test_case conn a st = (Return (fmt_Errorf msg), st')
          /\ Contains msg (strconv_Quote want) = true
          /\ Contains msg (strconv_Quote got) = true
          /\ (plain want = true -> Contains msg want = true)
          /\ (plain got = true -> Contains msg got = true))).
Proof.
  intros Hk -> Hr st'.
  assert (Hcase : Test_case (Some c) a st
    = match err with
      | Some e => (Return (fmt_Errorf ("expected to receive a packet but got error: " +:+ Error_msg e)), st')
      | None =>
          match GenericPacket_String (packet a), GenericPacket_String pkt with
          | Return want, Return got =>
              if String.eqb want got then (Return None, st')
              else (Return (fmt_Errorf ("expected packet of " +:+ strconv_Quote want
                                        +:+ " but got " +:+ strconv_Quote got)), st')
          | Return _, Panic m => (Panic m, st')
          | Return _, Block => (Block, st')
          | Panic m, _ => (Panic m, st')
          | Block, _ => (Block, st')
          end
      end).
  { rewrite (receive_case _ _ Hk). unfold bind at 1.
    rewrite (conn_Receive_returns _ _ _ _ Hr). fold st'. cbn [snd fst].
    destruct err; [done|]. unfold bind, lift, ret.
    destruct (GenericPacket_String (packet a)); [|done..].
    destruct (GenericPacket_String pkt); [|done..].
    by destruct (String.eqb _ _). }
  rewrite Hcase. clear Hcase. split.
  - intros e' Herr. by rewrite Herr.
  - intros e p Herr Hpa Hpkt want got msg. rewrite Herr, Hpa, Hpkt.
    cbn [GenericPacket_String]. fold want got.
    destruct (String.eqb_spec want got) as [Heq|Hne].
    + split; [done|]. by intros Hne.
    + split; [split; [intros ?; simplify_eq|done]|]. intros _.
      assert (Hw : Contains msg (strconv_Quote want) = true) by apply Contains_app.
      assert (Hg : Contains msg (strconv_Quote got) = true).
      { unfold msg. rewrite <- !string_app_assoc. apply Contains_suffix. }
      split; [done|]. split; [done|]. split; [done|]. split.
      * intros Hp. apply (Contains_trans _ _ _ Hw).
        rewrite (strconv_Quote_plain _ Hp). apply (Contains_app (String dquote EmptyString)).
      * intros Hp. apply (Contains_trans _ _ _ Hg).
        rewrite (strconv_Quote_plain _ Hp). apply (Contains_app (String dquote EmptyString)).
Qed.


Lemma end_verdict c a st pkt err s' :
  kind a = actionEnd ->
  Conn_Receive c (heap st, world st) = (Return (pkt, err), s') ->
  Test_case (Some c) a st
  = (Return
       match err with
       | Some e =>
           if Contains (Error_msg e) "EOF"
           then match pkt with
                | Some p => fmt_Errorf ("expected no packet but got " +:+ Packet_String p)
                | None => None
                end
           else fmt_Errorf ("expected EOF but got " +:+ Error_msg e)
       | None =>
           match pkt with
           | Some p => fmt_Errorf ("expected no packet but got " +:+ Packet_String p)
           | None => None
           end
       end,
     mk_State (fst s') (snd s') (trace st ++ [EvReceive])).
Proof.
  intros Hk Hr. rewrite (end_case _ _ Hk). unfold bind.
  rewrite (conn_Receive_returns _ _ _ _ Hr). cbn [snd fst].
  destruct err as [e|]; [destruct (Contains (Error_msg e) "EOF")|]; simpl;
    by destruct pkt.
Qed.

(** C5. An [end] action makes one [Receive] request.  If [Receive]
    returns an error whose message does not contain "EOF", the action
    fails with "expected EOF but got " followed by that message.
    Otherwise, if [Receive] returns a packet, the action fails with
    "expected no packet but got " followed by the rendering of the
    packet.  Otherwise the action succeeds.  In every case in which a
    packet is returned the action fails. *)
Theorem end_action_expects_end_of_stream conn c a st pkt err s' :
  kind a = actionEnd ->
  conn = Some c ->
  Conn_Receive c (heap st, world st) = (Return (pkt, err), s') ->
  let st' := mk_State (fst s') (snd s') (trace st ++ [EvReceive]) in
  let end_of_stream :=
    err = None \/ exists e, err = Some e /\ Contains (Error_msg e) "EOF" = true in
  (forall e, err = Some e -> Contains (Error_msg e) "EOF" = false ->
      Test_case conn a st = (Return (fmt_Errorf ("expected EOF but got " +:+ Error_msg e)), st'))
  /\ (forall p, end_of_stream -> pkt = Some p ->
      Test_case conn a st
      = (Return (fmt_Errorf ("expected no packet but got " +:+ Packet_String p)), st'))
  /\ (end_of_stream -> pkt = None -> Test_case conn a st = (Return None, st'))
  /\ (forall p, pkt = Some p -> exists e, Test_case conn a st = (Return (Some e), st')).
Proof.
  intros Hk -> Hr st' eos. rewrite (end_verdict _ _ _ _ _ _ Hk Hr). fold st'.
  split; [|split; [|split]].
  - intros e -> He. by rewrite He.
  - intros p [->|(e & -> & He)] ->; [done|by rewrite He].
  - intros [->|(e & -> & He)] ->; [done|by rewrite He].
  - intros p ->. destruct err as [e|]; [destruct (Contains _ _)|]; by eexists.
Qed.

(** C9. An [end] action succeeds when [Receive] returns no packet
    together with no error at all, or together with any error whose
    message contains "EOF" somewhere; such an error need not be [io.EOF]:
    an error reading "unexpected EOF" is accepted too. *)
Theorem end_action_accepts_nil_and_any_EOF_text conn c a st err s' :
  kind a = actionEnd ->
  conn = Some c ->
  Conn_Receive c (heap st, world st) = (Return (None, err), s') ->
  err = None \/ (exists e, err = Some e /\ Contains (Error_msg e) "EOF" = true) ->
  Test_case conn a st = (Return None, mk_State (fst s') (snd s') (trace st ++ [EvReceive]))
  /\ errors_New "unexpected EOF" <> io_EOF
  /\ Contains (Error_msg (errors_New "unexpected EOF")) "EOF" = true.
Proof.
  intros Hk -> Hr Herr. rewrite (end_verdict _ _ _ _ _ _ Hk Hr).
  split; [|done].
  destruct Herr as [->|(e & -> & He)]; [done|by rewrite He].
Qed.

End ExecutorProperties.

(** ** The loopback connection *)

Section PipeProperties.
Context {P : Type}.
Implicit Types (conn : @Pipe P) (c : @Call P) (calls : list (@Call P)).

Lemma NewPipe_inv : Pipe_inv (@NewPipe P).
Proof. by intros ?. Qed.

Lemma Pipe_Send_closed conn (g : nat) (pkt : option P) (pick : nat) :
  Pipe_inv conn -> close conn = true ->
  Pipe_Send g pkt pick conn = (conn, [(g, RetSend (Some (errors_New "already closed")))]).
Proof.
  intros Hinv Hc. destruct (Hinv Hc) as [_ Hr]. unfold Pipe_Send.
  by rewrite Hr, Hc, bool_decide_eq_true_2, selectgo_only_second.
Qed.

Lemma Pipe_Receive_closed conn (g pick : nat) :
  Pipe_inv conn -> close conn = true ->
  Pipe_Receive g pick conn = (conn, [(g, RetReceive None (Some io_EOF))]).
Proof.
  intros Hinv Hc. destruct (Hinv Hc) as [Hs _]. unfold Pipe_Receive.
  by rewrite Hs, Hc, bool_decide_eq_true_2, selectgo_only_second.
Qed.

Lemma Pipe_Close_closed conn (g : nat) :
  close conn = true -> Pipe_Close g conn = (conn, [(g, RetPanic "close of closed channel")]).
Proof. intros Hc. unfold Pipe_Close. by rewrite Hc. Qed.

Lemma Pipe_Send_close conn (g : nat) (pkt : option P) (pick : nat) :
  close (fst (Pipe_Send g pkt pick conn)) = close conn.
Proof. unfold Pipe_Send. by repeat case_match. Qed.

Lemma Pipe_Receive_close conn (g pick : nat) :
  close (fst (Pipe_Receive g pick conn)) = close conn.
Proof. unfold Pipe_Receive. by repeat case_match. Qed.

Lemma Pipe_step_inv c conn : Pipe_inv conn -> Pipe_inv (fst (Pipe_step c conn)).
Proof.
  intros Hinv. destruct (close conn) eqn:Hc.
  - destruct c as [g pkt pick|g pick|g]; simpl.
    + by rewrite Pipe_Send_closed.
    + by rewrite Pipe_Receive_closed.
    + by rewrite Pipe_Close_closed.
  - destruct c as [g pkt pick|g pick|g]; simpl; intros Hc'.
    + rewrite Pipe_Send_close in Hc'. congruence.
    + rewrite Pipe_Receive_close in Hc'. congruence.
    + unfold Pipe_Close. by rewrite Hc.
Qed.

Lemma Pipe_step_stays_closed c conn :
  close conn = true -> close (fst (Pipe_step c conn)) = true.
Proof.
  intros Hc. destruct c as [g pkt pick|g pick|g]; simpl.
  - by rewrite Pipe_Send_close.
  - by rewrite Pipe_Receive_close.
  - by rewrite Pipe_Close_closed.
Qed.

Lemma Pipe_Close_closes conn (g : nat) : close (fst (Pipe_Close g conn)) = true.
Proof. unfold Pipe_Close. by destruct (close conn) eqn:Hc. Qed.

Lemma Pipe_run_cons c calls conn :
  Pipe_run (c :: calls) conn
  = (fst (Pipe_run calls (fst (Pipe_step c conn))),
     snd (Pipe_step c conn) ++ snd (Pipe_run calls (fst (Pipe_step c conn)))).
Proof. simpl. destruct (Pipe_step c conn) as [conn1 out1]. simpl. by destruct (Pipe_run calls conn1). Qed.

Lemma Pipe_run_inv calls : forall conn, Pipe_inv conn -> Pipe_inv (fst (Pipe_run calls conn)).
Proof.
  induction calls as [|c calls IH]; intros conn Hinv; [done|].
  rewrite Pipe_run_cons. simpl. by apply IH, Pipe_step_inv.
Qed.

Lemma Pipe_run_stays_closed calls : forall conn,
  close conn = true -> close (fst (Pipe_run calls conn)) = true.
Proof.
  induction calls as [|c calls IH]; intros conn Hc; [done|].
  rewrite Pipe_run_cons. simpl. by apply IH, Pipe_step_stays_closed.
Qed.

Lemma Pipe_run_closed calls (g : nat) : forall conn,
  In (CallClose g) calls -> close (fst (Pipe_run calls conn)) = true.
Proof.
  induction calls as [|c calls IH]; intros conn Hin; [done|].
  rewrite Pipe_run_cons. simpl. destruct Hin as [->|Hin].
  - apply Pipe_run_stays_closed. simpl. apply Pipe_Close_closes.
  - by apply IH.
Qed.

(** C2. In any history of calls on a new pipe in which [Close] has been
    called, whoever calls next and whatever the runtime draws: [Send] of
    any packet returns the error "already closed", and [Receive] returns
    no packet together with [io.EOF]; neither changes the pipe, so the
    same holds for every call after that. *)
Theorem Pipe_Send_Receive_after_Close calls (g0 : nat) :
  In (CallClose g0) calls ->
  let conn := fst (Pipe_run calls NewPipe) in
  (forall g pkt pick,
      Pipe_Send g pkt pick conn = (conn, [(g, RetSend (Some (errors_New "already closed")))]))
  /\ (forall g pick,
      Pipe_Receive g pick conn = (conn, [(g, RetReceive None (Some io_EOF))])).
Proof.
  intros Hin conn.
  assert (Hinv : Pipe_inv conn) by apply Pipe_run_inv, NewPipe_inv.
  assert (Hc : close conn = true) by exact (Pipe_run_closed _ _ _ Hin).
  split; intros; [by apply Pipe_Send_closed|by apply Pipe_Receive_closed].
Qed.


(** *** Closing *)

Lemma closes_returned_app (out1 out2 : list (nat * @Ret P)) :
  closes_returned (out1 ++ out2) = (closes_returned out1 + closes_returned out2)%nat.
Proof. unfold closes_returned. by rewrite List.filter_app, length_app. Qed.

Lemma Pipe_Send_no_close conn (g : nat) (pkt : option P) (pick : nat) :
  closes_returned (snd (Pipe_Send g pkt pick conn)) = 0%nat.
Proof. unfold Pipe_Send. by repeat case_match. Qed.

Lemma Pipe_Receive_no_close conn (g pick : nat) :
  closes_returned (snd (Pipe_Receive g pick conn)) = 0%nat.
Proof. unfold Pipe_Receive. by repeat case_match. Qed.

Lemma woken_no_close (ss : list (nat * option P)) (rs : list nat) :
  closes_returned
    (map (fun s => (fst s, RetSend (Some (errors_New "already closed")))) ss
     ++ map (fun r => (r, @RetReceive P None (Some io_EOF))) rs) = 0%nat.
Proof.
  rewrite closes_returned_app. unfold closes_returned.
  replace (List.filter is_RetClose (map _ ss)) with (@nil (nat * @Ret P))
    by (induction ss; simpl; done).
  replace (List.filter is_RetClose (map _ rs)) with (@nil (nat * @Ret P))
    by (induction rs; simpl; done).
  done.
Qed.

Lemma Pipe_Close_open conn (g : nat) :
  close conn = false -> closes_returned (snd (Pipe_Close g conn)) = 1%nat.
Proof.
  intros Hc. unfold Pipe_Close. rewrite Hc. cbn [snd].
  by rewrite app_assoc, closes_returned_app, woken_no_close.
Qed.

Lemma Pipe_step_closed_no_close c conn :
  close conn = true -> closes_returned (snd (Pipe_step c conn)) = 0%nat.
Proof.
  intros Hc. destruct c as [g pkt pick|g pick|g]; simpl.
  - apply Pipe_Send_no_close.
  - apply Pipe_Receive_no_close.
  - by rewrite Pipe_Close_closed.
Qed.

Lemma Pipe_run_closed_no_close calls : forall conn,
  close conn = true -> closes_returned (snd (Pipe_run calls conn)) = 0%nat.
Proof.
  induction calls as [|c calls IH]; intros conn Hc; [done|].
  rewrite Pipe_run_cons. cbn [snd]. rewrite closes_returned_app.
  rewrite Pipe_step_closed_no_close by done.
  by rewrite IH by (by apply Pipe_step_stays_closed).
Qed.

Lemma Pipe_run_closes_once calls : forall conn,
  (closes_returned (snd (Pipe_run calls conn)) <= 1)%nat.
Proof.
  induction calls as [|c calls IH]; intros conn; [simpl; unfold closes_returned; simpl; lia|].
  rewrite Pipe_run_cons. cbn [snd]. rewrite closes_returned_app.
  destruct (close conn) eqn:Hc.
  - rewrite Pipe_step_closed_no_close by done. apply IH.
  - destruct c as [g pkt pick|g pick|g]; simpl.
    + rewrite Pipe_Send_no_close. apply IH.
    + rewrite Pipe_Receive_no_close. apply IH.
    + rewrite Pipe_Close_open by done.
      rewrite Pipe_run_closed_no_close by apply Pipe_Close_closes. lia.
Qed.

(** C6. In any history of calls on a new pipe in which [Close] has been
    called, a further [Close] does not return: it panics with "close of
    closed channel" and leaves the pipe as it was.  In any history
    whatever, at most one call of [Close] returns. *)
Theorem Pipe_Close_again_panics calls (g0 : nat) :
  In (CallClose g0) calls ->
  let conn := fst (Pipe_run calls NewPipe) in
  (forall g, Pipe_Close g conn = (conn, [(g, RetPanic "close of closed channel")]))
  /\ (forall calls' : list (@Call P),
        (closes_returned (snd (Pipe_run calls' NewPipe)) <= 1)%nat).
Proof.
  intros Hin conn. split.
  - intros g. apply Pipe_Close_closed. exact (Pipe_run_closed _ _ _ Hin).
  - intros calls'. apply Pipe_run_closes_once.
Qed.

End PipeProperties.

(** ** The asynchronous executor *)

Section AsyncProperties.
Context {P : Type} `{GenericPacketImpl P} {X : Type} {tables : UnicodeTables}
  {funcs : @Closures P X}.
Implicit Types (st : @State P X) (conn : @Conn P X).

(** The goroutine writes to [errCh] only after [Test] has returned: while
    [Test] is blocked, nothing is delivered, whatever the timeout. *)
Lemma TestAsync_blocked (f : nat) conn (timeout : Z) (pick : nat) st st' :
  Test f conn st = (Block, st') ->
  TestAsync f conn timeout pick st = (Block, st').
Proof. intros Ht. unfold TestAsync, TestAsync_goroutine, bind. by rewrite Ht. Qed.

(** When [Test] returns, exactly one value is written to [errCh]: the
    timeout error or the result of [Test]. *)
Lemma TestAsync_writes_once (f : nat) conn (timeout : Z) (pick : nat) st v st' :
  Test f conn st = (Return v, st') ->
  exists x, fst (TestAsync f conn timeout pick st) = Return (mk_bchan 1 [x])
            /\ (x = v \/ x = Some timeout_error).
Proof.
  intros Ht. unfold TestAsync, TestAsync_goroutine, bind. rewrite Ht.
  change (bchan_can_send (make_bchan 1)) with true.
  destruct (now (world st) + timeout <=? now (world st')).
  - destruct (selectgo_both pick) as [-> | ->]; eexists; (split; [done|]); auto.
  - rewrite selectgo_only_second. eexists; (split; [done|]); auto.
Qed.

(** When the deadline has passed by the time [Test] returns, both cases
    of the [select] can proceed and the draw decides: an odd draw
    delivers the result of [Test], an even draw the timeout error. *)
Lemma TestAsync_late (f : nat) conn (timeout : Z) (pick : nat) st v st' :
  Test f conn st = (Return v, st') ->
  now (world st) + timeout <= now (world st') ->
  TestAsync f conn timeout pick st
  = (Return (mk_bchan 1 [if Nat.even pick then Some timeout_error else v]), st').
Proof.
  intros Ht Hlate. unfold TestAsync, TestAsync_goroutine, bind. rewrite Ht.
  change (bchan_can_send (make_bchan 1)) with true.
  apply Z.leb_le in Hlate. rewrite Hlate.
  unfold selectgo. change (ready_cases [true; true] 0) with [0%nat; 1%nat].
  change (length [0%nat; 1%nat]) with 2%nat.
  destruct (Nat.even pick) eqn:He.
  - apply Nat.even_spec in He. destruct He as [k ->].
    replace ((2 * k) mod 2)%nat with 0%nat; [done|].
    symmetry. rewrite Nat.mul_comm. apply Nat.Div0.mod_mul.
  - assert (Ho : Nat.odd pick = true) by (by rewrite <- Nat.negb_even, He).
    apply Nat.odd_spec in Ho. destruct Ho as [k ->].
    replace ((2 * k + 1) mod 2)%nat with 1%nat; [done|].
    symmetry. rewrite Nat.add_comm, Nat.mul_comm, Nat.Div0.mod_add. done.
Qed.

(** When [Test] returns before the deadline, only the send case can
    proceed and the result of [Test] is delivered as it is. *)
Lemma TestAsync_early (f : nat) conn (timeout : Z) (pick : nat) st v st' :
  Test f conn st = (Return v, st') ->
  now (world st') < now (world st) + timeout ->
  TestAsync f conn timeout pick st = (Return (mk_bchan 1 [v]), st').
Proof.
  intros Ht Hearly. unfold TestAsync, TestAsync_goroutine, bind. rewrite Ht.
  change (bchan_can_send (make_bchan 1)) with true.
  apply Z.leb_gt in Hearly. by rewrite Hearly, selectgo_only_second.
Qed.

End AsyncProperties.

(** C1 (the code at a failing input).  The flow is one [delay] of two
    seconds and the timeout is one second.  [Test] returns nil at time
    two seconds, one second after the deadline; with the draw [1] the
    channel returned by [TestAsync] holds that nil, not the timeout
    error; with the draw [0] it holds the timeout error.  And on a flow
    that waits for a packet nobody sends, [TestAsync] never writes to the
    channel, whatever the timeout. *)
Theorem TestAsync_delivers_late_result :
  let conn := Some (Pipe_Conn 0 0) in
  let st := one_flow [built (BDelay 2000000000)] NewPipe in
  fst (Test 0%nat conn st) = Return None
  /\ now (world (snd (Test 0%nat conn st))) = 2000000000
  /\ fst (TestAsync 0%nat conn 1000000000 1 st) = Return (mk_bchan 1 [None])
  /\ fst (TestAsync 0%nat conn 1000000000 0 st) = Return (mk_bchan 1 [Some timeout_error])
  /\ (forall pick timeout,
        fst (TestAsync 0%nat conn timeout pick (one_flow [built (BReceive (Some "CONNACK"))] NewPipe))
        = Block).
Proof.
  intros conn st.
  split; [vm_compute; reflexivity|].
  split; [vm_compute; reflexivity|].
  split; [vm_compute; reflexivity|].
  split; [vm_compute; reflexivity|].
  intros pick timeout.
  set (st0 := one_flow [built (BReceive (Some "CONNACK"))] NewPipe).
  rewrite (TestAsync_blocked 0%nat conn timeout pick st0 (snd (Test 0%nat conn st0)));
    [reflexivity|vm_compute; reflexivity].
Qed.

(** ** The model at work *)

Example Quote_plain_rendering :
  strconv_Quote "CONNECT" = String dquote ("CONNECT" +:+ String dquote EmptyString).
Proof. reflexivity. Qed.

Example Quote_escapes :
  strconv_Quote quoted_rendering
  = String dquote ("Topic=" +:+ String backslash (String dquote ("a" +:+ String backslash
      (String dquote (String dquote EmptyString))))).
Proof. reflexivity. Qed.

(** A printable rune of two bytes is copied as it is. *)
Example Quote_copies_printable_runes :
  strconv_Quote accented_rendering
  = String dquote (accented_rendering +:+ String dquote EmptyString).
Proof. reflexivity. Qed.

Example Contains_EOF :
  Contains "unexpected EOF" "EOF" = true /\ Contains "closed" "EOF" = false.
Proof. split; reflexivity. Qed.

(** A parked sender and a parked receiver are both woken by [Close]. *)
Example Close_wakes_parked :
  snd (Pipe_Close 3 (fst (Pipe_Send 1 (Some "CONNECT") 0 NewPipe)))
  = [(1%nat, RetSend (Some (errors_New "already closed"))); (3%nat, RetClose None)]
  /\ snd (Pipe_Close 3 (fst (Pipe_Receive 2 0 (@NewPipe string))))
     = [(2%nat, RetReceive None (Some io_EOF)); (3%nat, RetClose None)].
Proof. split; reflexivity. Qed.

(** [Send] meets a parked [Receive]: both return, the packet is handed
    over. *)
Example Send_meets_Receive :
  Pipe_run [CallReceive 2 0; CallSend 1 (Some "CONNECT") 0] NewPipe
  = (NewPipe, [(1%nat, RetSend None); (2%nat, RetReceive (Some "CONNECT") None)]).
Proof. reflexivity. Qed.

(** The flow [receive(CONNACK), close, end] against a peer that offers
    CONNACK returns nil after three requests. *)
Example flow_on_pipe :
  let st := one_flow [built (BReceive (Some "CONNACK")); built BClose; built BEnd]
              (pipe_offering "CONNACK") in
  fst (Test 0%nat (Some (Pipe_Conn 0 0)) st) = Return None
  /\ trace (snd (Test 0%nat (Some (Pipe_Conn 0 0)) st)) = [EvReceive; EvClose; EvReceive].
Proof. split; vm_compute; reflexivity. Qed.

(** A flow that closes twice panics; a [send] without a peer blocks. *)
Example flow_misuse :
  fst (Test 0%nat (Some (Pipe_Conn 0 0)) (one_flow [built BClose; built BClose] NewPipe))
  = Panic "close of closed channel"
  /\ fst (Test 0%nat (Some (Pipe_Conn 0 0)) (one_flow [built (BSend (Some "CONNECT"))] NewPipe))
     = Block.
Proof. split; vm_compute; reflexivity. Qed.

(** * The statements at sample inputs *)

(** A flow built by a chain of four calls. *)
Lemma builder_appends_one_action_witness :
  let st := one_flow [] NewPipe in
  let bs := [BSend (Some "CONNECT"); BReceive (Some "CONNACK"); BClose; BEnd] in
  heap st !! 0%nat = Some (mk_Flow [])
  /\ chain 0%nat bs st
     = (Return 0%nat,
        mk_State (<[0%nat := mk_Flow ([] ++ map built bs)]> (heap st)) (world st) (trace st)).
Proof.
  split; [reflexivity|].
  apply (proj2 (builder_appends_one_action 0%nat (mk_Flow []) (one_flow [] NewPipe) eq_refl)).
Defined.

(** A delay, then a [receive] that meets another packet, then a [close]
    that is never reached. *)
Lemma Test_runs_actions_in_order_witness :
  let conn := Some (Pipe_Conn 0 0) in
  let pre := [built (BDelay 5)] in
  let a := built (BReceive (Some "CONNACK")) in
  let post := [built BClose] in
  let st := one_flow (pre ++ a :: post) (pipe_offering "PUBLISH") in
  let st1 := snd (Test_range conn pre st) in
  let st2 := snd (Test_case conn a st1) in
  let e := errorString ("expected packet of " +:+ strconv_Quote "CONNACK"
                        +:+ " but got " +:+ strconv_Quote "PUBLISH") in
  Test 0%nat conn st = (Return (Some e), st2)
  /\ trace st2 = trace st ++ flat_map events_of (pre ++ [a]).
Proof.
  intros conn pre a post st st1 st2 e.
  apply (proj1 (Test_runs_actions_in_order 0%nat (mk_Flow (pre ++ a :: post)) conn st eq_refl)
           pre a post st1 st2 e eq_refl).
  - apply (all_succeed_cons conn (built (BDelay 5)) [] st st1 st1);
      [vm_compute; reflexivity|constructor].
  - vm_compute; reflexivity.
Defined.

(** CONNECT expected, CONNACK received. *)
Lemma receive_action_compares_renderings_witness :
  let c := Pipe_Conn 0 0 in
  let a := built (BReceive (Some "CONNECT")) in
  let st := one_flow [] (pipe_offering "CONNACK") in
  let st' := mk_State (heap st) (pipe_world NewPipe) (trace st ++ [EvReceive]) in
  let msg := "expected packet of " +:+ strconv_Quote "CONNECT"
             +:+ " but got " +:+ strconv_Quote "CONNACK" in
  Test_case (Some c) a st = (Return (fmt_Errorf msg), st')
  /\ Contains msg (strconv_Quote "CONNECT") = true
  /\ Contains msg (strconv_Quote "CONNACK") = true
  /\ Contains msg "CONNECT" = true
  /\ Contains msg "CONNACK" = true.
Proof.
  intros c a st st' msg.
  destruct (proj2 (receive_action_compares_renderings (Some c) c a st
                     (Some "CONNACK") None (heap st, pipe_world NewPipe)
                     eq_refl eq_refl eq_refl)
              "CONNECT" "CONNACK" eq_refl eq_refl eq_refl) as [_ Hne].
  destruct Hne as (Ht & Hw & Hg & Hpw & Hpg); [discriminate|].
  split; [exact Ht|]. split; [exact Hw|]. split; [exact Hg|].
  split; [exact (Hpw eq_refl)|exact (Hpg eq_refl)].
Defined.

(** The rendering of the expected packet has double quotes in it: the
    message of the mismatch carries it with a backslash before each of
    them, and does not contain the rendering as it stands. *)
Lemma receive_mismatch_message_not_literal :
  let conn := Some (Pipe_Conn 0 0) in
  let a := built (BReceive (Some quoted_rendering)) in
  let st := one_flow [] (pipe_offering "CONNACK") in
  exists msg,
    fst (Test_case conn a st) = Return (Some (errorString msg))
    /\ msg = "expected packet of " +:+ strconv_Quote quoted_rendering
             +:+ " but got " +:+ strconv_Quote "CONNACK"
    /\ Contains msg quoted_rendering = false.
Proof. eexists. split; [vm_compute; reflexivity|]. split; vm_compute; reflexivity. Qed.

(** An [end] action on a pipe that its peer has closed. *)
Lemma end_action_expects_end_of_stream_witness :
  let c := Pipe_Conn 0 0 in
  let a := built BEnd in
  let closed := fst (Pipe_Close 1 NewPipe) in
  let st := one_flow [] closed in
  Test_case (Some c) a st
  = (Return None, mk_State (heap st) (pipe_world closed) (trace st ++ [EvReceive])).
Proof.
  intros c a closed st.
  apply (proj1 (proj2 (proj2 (end_action_expects_end_of_stream (Some c) c a st
                                None (Some io_EOF) (heap st, pipe_world closed)
                                eq_refl eq_refl eq_refl)))).
  - right. exists io_EOF. split; reflexivity.
  - reflexivity.
Defined.

(** An [end] action on a connection that reports "unexpected EOF". *)
Lemma end_action_accepts_nil_and_any_EOF_text_witness :
  let err := Some (errors_New "unexpected EOF") in
  let c := fixed_conn (None, err) in
  let a := built BEnd in
  let st := unit_state [] in
  Test_case (Some c) a st
  = (Return None, mk_State (heap st) (world st) (trace st ++ [EvReceive]))
  /\ errors_New "unexpected EOF" <> io_EOF
  /\ Contains (Error_msg (errors_New "unexpected EOF")) "EOF" = true.
Proof.
  intros err c a st.
  apply (end_action_accepts_nil_and_any_EOF_text (Some c) c a st err (heap st, world st)
           eq_refl eq_refl eq_refl).
  right. exists (errors_New "unexpected EOF"). split; reflexivity.
Defined.

(** One goroutine parked in [Send], then [Close] by another. *)
Lemma Pipe_Send_Receive_after_Close_witness :
  let calls := [CallSend 1 (Some "CONNECT") 0; CallClose 2] in
  let conn := fst (Pipe_run calls NewPipe) in
  In (CallClose 2) calls
  /\ (forall g pkt pick,
        Pipe_Send g pkt pick conn = (conn, [(g, RetSend (Some (errors_New "already closed")))]))
  /\ (forall g pick,
        Pipe_Receive g pick conn = (conn, [(g, RetReceive None (Some io_EOF))])).
Proof.
  intros calls conn.
  assert (Hin : In (CallClose 2) calls) by (right; left; reflexivity).
  split; [exact Hin|]. exact (Pipe_Send_Receive_after_Close calls 2%nat Hin).
Defined.

(** [Close] by one goroutine, then [Close] again. *)
Lemma Pipe_Close_again_panics_witness :
  let calls := [@CallClose string 1] in
  let conn := fst (Pipe_run calls NewPipe) in
  In (CallClose 1) calls
  /\ (forall g, Pipe_Close g conn = (conn, [(g, RetPanic "close of closed channel")]))
  /\ (forall calls' : list (@Call string),
        (closes_returned (snd (Pipe_run calls' NewPipe)) <= 1)%nat).
Proof.
  intros calls conn.
  assert (Hin : In (CallClose 1) calls) by (left; reflexivity).
  split; [exact Hin|]. exact (Pipe_Close_again_panics calls 1%nat Hin).
Defined.




(** * Further properties *)

(** ** The pipe: pairing of [Send] and [Receive] *)

Section PipePairing.
Context {P : Type}.
Implicit Types (conn : @Pipe P) (c : @Call P) (calls : list (@Call P)).

Lemma selectgo_first_not_ready (b : bool) (pick : nat) :
  selectgo [false; b] pick <> Some 0%nat.
Proof.
  destruct b; [by rewrite selectgo_only_second|by rewrite selectgo_none].
Qed.

Lemma peer_index_lt {A : Type} (pick : nat) (q : list A) :
  q <> [] -> (peer_index pick q < length q)%nat.
Proof.
  intros Hq. unfold peer_index. apply Nat.mod_upper_bound.
  destruct q; [done|]. simpl. lia.
Qed.

Lemma peer_index_one {A : Type} (pick : nat) (x : A) : peer_index pick [x] = 0%nat.
Proof. unfold peer_index. change (length [x]) with 1%nat. apply Nat.mod_1_r. Qed.

Lemma Pipe_run_app calls1 : forall calls2 conn,
  Pipe_run (calls1 ++ calls2) conn
  = (fst (Pipe_run calls2 (fst (Pipe_run calls1 conn))),
     snd (Pipe_run calls1 conn) ++ snd (Pipe_run calls2 (fst (Pipe_run calls1 conn)))).
Proof.
  induction calls1 as [|c calls1 IH]; intros calls2 conn.
  - simpl. by destruct (Pipe_run calls2 conn).
  - rewrite <- app_comm_cons, !Pipe_run_cons, IH. simpl. by rewrite app_assoc.
Qed.

Lemma Pipe_Send_parks (q : list (nat * option P)) (g : nat) (pkt : option P) (pick : nat) :
  Pipe_Send g pkt pick (mk_Pipe (mk_hchan q []) false)
  = (mk_Pipe (mk_hchan (q ++ [(g, pkt)]) []) false, []).
Proof. unfold Pipe_Send. simpl. by rewrite selectgo_none. Qed.

Lemma Pipe_Receive_parks (q : list nat) (g pick : nat) :
  Pipe_Receive g pick (@mk_Pipe P (mk_hchan [] q) false)
  = (mk_Pipe (mk_hchan [] (q ++ [g])) false, []).
Proof. unfold Pipe_Receive. simpl. by rewrite selectgo_none. Qed.

(** A [Receive] when one sender is parked on an open pipe. *)
Lemma Pipe_Receive_takes (s : nat) (pkt : option P) (rq : list nat) (g pick : nat) :
  Pipe_Receive g pick (mk_Pipe (mk_hchan [(s, pkt)] rq) false)
  = (mk_Pipe (mk_hchan [] rq) false, [(g, RetReceive pkt None); (s, RetSend None)]).
Proof.
  unfold Pipe_Receive. cbn [pipe sendq recvq close].
  rewrite bool_decide_eq_false_2 by done. cbn [negb].
  by rewrite selectgo_only_first, peer_index_one.
Qed.

(** A [Send] when one receiver is parked on an open pipe. *)
Lemma Pipe_Send_gives (r : nat) (q : list (nat * option P))
    (g : nat) (pkt : option P) (pick : nat) :
  Pipe_Send g pkt pick (mk_Pipe (mk_hchan q [r]) false)
  = (mk_Pipe (mk_hchan q []) false, [(g, RetSend None); (r, RetReceive pkt None)]).
Proof.
  unfold Pipe_Send. cbn [pipe sendq recvq close].
  rewrite bool_decide_eq_false_2 by done. cbn [negb].
  by rewrite selectgo_only_first, peer_index_one.
Qed.

(** X1. On a new pipe a [Send] alone does not end, and neither does a
    [Receive] alone.  When the other call comes, both end: the receiver
    gets the packet of the sender with no error, the sender gets nil, and
    the pipe is as new again, in whichever order the two calls arrive
    and whatever the runtime draws. *)
Theorem Pipe_rendezvous (g1 g2 : nat) (pkt : option P) (pick1 pick2 : nat) :
  Pipe_Send g1 pkt pick1 NewPipe = (mk_Pipe (mk_hchan [(g1, pkt)] []) false, [])
  /\ Pipe_Receive g2 pick2 (@NewPipe P) = (mk_Pipe (mk_hchan [] [g2]) false, [])
  /\ Pipe_run [CallSend g1 pkt pick1; CallReceive g2 pick2] NewPipe
     = (NewPipe, [(g2, RetReceive pkt None); (g1, RetSend None)])
  /\ Pipe_run [CallReceive g2 pick2; CallSend g1 pkt pick1] NewPipe
     = (NewPipe, [(g1, RetSend None); (g2, RetReceive pkt None)]).
Proof.
  unfold NewPipe. split; [apply (Pipe_Send_parks [])|].
  split; [apply (Pipe_Receive_parks [])|]. split.
  - rewrite Pipe_run_cons. cbn [Pipe_step]. rewrite (Pipe_Send_parks []).
    cbn [fst snd app]. rewrite Pipe_run_cons. cbn [Pipe_step].
    by rewrite Pipe_Receive_takes.
  - rewrite Pipe_run_cons. cbn [Pipe_step]. rewrite (Pipe_Receive_parks []).
    cbn [fst snd app]. rewrite Pipe_run_cons. cbn [Pipe_step].
    by rewrite Pipe_Send_gives.
Qed.

End PipePairing.

(** ** The pipe: nothing is buffered, lost or invented *)

Section PipeAccounting.
Context {P : Type}.
Implicit Types (conn : @Pipe P) (c : @Call P) (calls : list (@Call P))
  (out : list (nat * @Ret P)).

Lemma sends_returned_app out1 out2 :
  sends_returned (out1 ++ out2) = (sends_returned out1 + sends_returned out2)%nat.
Proof. unfold sends_returned. by rewrite List.filter_app, length_app. Qed.

Lemma receives_returned_app out1 out2 :
  receives_returned (out1 ++ out2) = (receives_returned out1 + receives_returned out2)%nat.
Proof. unfold receives_returned. by rewrite List.filter_app, length_app. Qed.

Lemma filter_woken_senders (f : nat * @Ret P -> bool) (ss : list (nat * option P)) :
  (forall g : nat, f (g, RetSend (Some (errors_New "already closed"))) = false) ->
  List.filter f (map (fun s : nat * option P =>
                        (fst s, @RetSend P (Some (errors_New "already closed")))) ss) = [].
Proof. intros Hf. induction ss as [|s ss IH]; simpl; [done|]. by rewrite Hf. Qed.

Lemma filter_woken_receivers (f : nat * @Ret P -> bool) (rs : list nat) :
  (forall g : nat, f (g, RetReceive None (Some io_EOF)) = false) ->
  List.filter f (map (fun r : nat => (r, @RetReceive P None (Some io_EOF))) rs) = [].
Proof. intros Hf. induction rs as [|r rs IH]; simpl; [done|]. by rewrite Hf. Qed.

Lemma woken_none_returned (ss : list (nat * option P)) (rs : list nat) (g : nat) :
  let out := map (fun s : nat * option P =>
                    (fst s, @RetSend P (Some (errors_New "already closed")))) ss
             ++ map (fun r : nat => (r, @RetReceive P None (Some io_EOF))) rs
             ++ [(g, RetClose None)] in
  sends_returned out = 0%nat /\ receives_returned out = 0%nat /\
  length out = S (length ss + length rs).
Proof.
  intros out. unfold out.
  rewrite !sends_returned_app, !receives_returned_app, !length_app, !length_map.
  unfold sends_returned, receives_returned.
  rewrite !filter_woken_senders, !filter_woken_receivers by done.
  simpl. repeat split; lia.
Qed.

Lemma Pipe_step_matched c conn :
  sends_returned (snd (Pipe_step c conn)) = receives_returned (snd (Pipe_step c conn)).
Proof.
  destruct c as [g pkt pick|g pick|g]; cbn [Pipe_step].
  - unfold Pipe_Send. by repeat case_match.
  - unfold Pipe_Receive. by repeat case_match.
  - unfold Pipe_Close. destruct (close conn); [done|]. cbn [snd].
    destruct (woken_none_returned (sendq (pipe conn)) (recvq (pipe conn)) g) as (-> & -> & _).
    done.
Qed.

(** X3. In every history of calls, from any state of the pipe, as many
    calls of [Send] have returned nil as calls of [Receive] have returned
    without error: a send never completes without a receive taking its
    packet, and no receive completes without a send. *)
Theorem Pipe_sends_match_receives calls : forall conn,
  sends_returned (snd (Pipe_run calls conn)) = receives_returned (snd (Pipe_run calls conn)).
Proof.
  induction calls as [|c calls IH]; intros conn; [done|].
  rewrite Pipe_run_cons. cbn [snd].
  by rewrite sends_returned_app, receives_returned_app, Pipe_step_matched, IH.
Qed.

Lemma Pipe_step_accounted c conn :
  S (parked conn) = (length (snd (Pipe_step c conn)) + parked (fst (Pipe_step c conn)))%nat.
Proof.
  unfold parked. destruct c as [g pkt pick|g pick|g]; cbn [Pipe_step].
  - unfold Pipe_Send. destruct (recvq (pipe conn)) as [|r rq] eqn:Hq.
    + rewrite bool_decide_eq_true_2 by done. cbn [negb].
      destruct (selectgo _ pick) as [[|n]|] eqn:Hsel; cbn [fst snd pipe sendq recvq length].
      * by apply selectgo_first_not_ready in Hsel.
      * rewrite Hq. simpl. lia.
      * rewrite length_app. simpl. lia.
    + rewrite bool_decide_eq_false_2 by done. cbn [negb].
      pose proof (peer_index_lt pick (r :: rq)) as Hlt.
      destruct (selectgo _ pick) as [[|n]|] eqn:Hsel.
      * destruct (lookup_lt_is_Some_2 (r :: rq) (peer_index pick (r :: rq))) as [r' Hr'];
          [by apply Hlt|].
        rewrite Hr'. cbn [fst snd pipe sendq recvq].
        rewrite length_delete by (by eexists). simpl. lia.
      * cbn [fst snd pipe sendq recvq length]. rewrite Hq. simpl. lia.
      * cbn [fst snd pipe sendq recvq length]. rewrite length_app. simpl. lia.
  - unfold Pipe_Receive. destruct (sendq (pipe conn)) as [|s0 sq] eqn:Hq.
    + rewrite bool_decide_eq_true_2 by done. cbn [negb].
      destruct (selectgo _ pick) as [[|n]|] eqn:Hsel; cbn [fst snd pipe sendq recvq length].
      * by apply selectgo_first_not_ready in Hsel.
      * rewrite Hq. simpl. lia.
      * rewrite length_app. simpl. lia.
    + rewrite bool_decide_eq_false_2 by done. cbn [negb].
      pose proof (peer_index_lt pick (s0 :: sq)) as Hlt.
      destruct (selectgo _ pick) as [[|n]|] eqn:Hsel.
      * destruct (lookup_lt_is_Some_2 (s0 :: sq) (peer_index pick (s0 :: sq))) as [[s' p'] Hs'];
          [by apply Hlt|].
        rewrite Hs'. cbn [fst snd pipe sendq recvq].
        rewrite length_delete by (by eexists). simpl. lia.
      * cbn [fst snd pipe sendq recvq length]. rewrite Hq. simpl. lia.
      * cbn [fst snd pipe sendq recvq length]. rewrite length_app. simpl. lia.
  - unfold Pipe_Close. destruct (close conn); cbn [fst snd pipe sendq recvq length]; [lia|].
    destruct (woken_none_returned (sendq (pipe conn)) (recvq (pipe conn)) g) as (_ & _ & ->).
    lia.
Qed.

Lemma Pipe_run_accounted calls : forall conn,
  (length calls + parked conn
   = length (snd (Pipe_run calls conn)) + parked (fst (Pipe_run calls conn)))%nat.
Proof.
  induction calls as [|c calls IH]; intros conn; [simpl; lia|].
  rewrite Pipe_run_cons. cbn [fst snd length]. rewrite length_app.
  pose proof (Pipe_step_accounted c conn). pose proof (IH (fst (Pipe_step c conn))). lia.
Qed.

(** X4. In every history of calls on a new pipe each call has ended
    once or is still parked: the calls made are as many as the calls that
    ended plus the goroutines parked.  Once [Close] has been called
    nobody is parked, so every call made so far has ended. *)
Theorem Pipe_calls_end_or_park calls :
  let conn := fst (Pipe_run calls (@NewPipe P)) in
  let out := snd (Pipe_run calls (@NewPipe P)) in
  length calls = (length out + parked conn)%nat
  /\ (close conn = true -> parked conn = 0%nat /\ length out = length calls).
Proof.
  intros conn out.
  pose proof (Pipe_run_accounted calls NewPipe) as Hacc.
  change (parked NewPipe) with 0%nat in Hacc. fold conn out in Hacc.
  split; [lia|]. intros Hc.
  destruct (Pipe_run_inv calls NewPipe NewPipe_inv Hc) as [Hs Hr]. fold conn in Hs, Hr.
  assert (parked conn = 0%nat) by (unfold parked; by rewrite Hs, Hr).
  split; [done|lia].
Qed.

Lemma In_delete {A : Type} (x : A) (i : nat) (l : list A) : In x (delete i l) -> In x l.
Proof. rewrite <- !list_elem_of_In. apply list_elem_of_delete_inv. Qed.

Lemma In_lookup {A : Type} (x : A) (i : nat) (l : list A) : l !! i = Some x -> In x l.
Proof. rewrite <- list_elem_of_In. apply list_elem_of_lookup_2. Qed.

Lemma Pipe_step_sendq c conn (s : nat) (pkt : option P) :
  In (s, pkt) (sendq (pipe (fst (Pipe_step c conn)))) ->
  In (s, pkt) (sendq (pipe conn)) \/ exists pick, c = CallSend s pkt pick.
Proof.
  destruct c as [g gpkt pick|g pick|g]; cbn [Pipe_step].
  - unfold Pipe_Send. destruct (selectgo _ pick) as [[|n]|].
    + destruct (recvq (pipe conn) !! _); cbn [fst pipe sendq]; auto.
    + auto.
    + cbn [fst pipe sendq]. intros [Hin|[Heq|[]]]%in_app_or; [by left|].
      simplify_eq. right. by exists pick.
  - unfold Pipe_Receive. destruct (selectgo _ pick) as [[|n]|].
    + destruct (sendq (pipe conn) !! _) as [[s' p']|]; cbn [fst pipe sendq]; [|auto].
      intros Hin. left. by eapply In_delete.
    + auto.
    + cbn [fst pipe sendq]. auto.
  - unfold Pipe_Close. destruct (close conn); cbn [fst pipe sendq]; [auto|done].
Qed.

Lemma Pipe_step_received c conn (g : nat) (pkt : option P) :
  In (g, RetReceive pkt None) (snd (Pipe_step c conn)) ->
  (exists s, In (s, pkt) (sendq (pipe conn))) \/ exists s pick, c = CallSend s pkt pick.
Proof.
  destruct c as [g' gpkt pick|g' pick|g']; cbn [Pipe_step].
  - unfold Pipe_Send. destruct (selectgo _ pick) as [[|n]|].
    + destruct (recvq (pipe conn) !! _); cbn [snd]; [|done].
      intros [Hin|[Hin|[]]]; simplify_eq. right. by exists g', pick.
    + cbn [snd]. intros [Hin|[]]. simplify_eq.
    + done.
  - unfold Pipe_Receive. destruct (selectgo _ pick) as [[|n]|].
    + destruct (sendq (pipe conn) !! _) as [[s' p']|] eqn:Hq; cbn [snd]; [|done].
      intros [Hin|[Hin|[]]]; simplify_eq. left. exists s'. by eapply In_lookup.
    + cbn [snd]. intros [Hin|[]]. simplify_eq.
    + done.
  - unfold Pipe_Close. destruct (close conn); cbn [snd]; intros Hin.
    + destruct Hin as [Hin|[]]. simplify_eq.
    + apply in_app_or in Hin. destruct Hin as [Hin|Hin].
      { apply in_map_iff in Hin. destruct Hin as (? & Heq & _). simplify_eq. }
      apply in_app_or in Hin. destruct Hin as [Hin|Hin].
      { apply in_map_iff in Hin. destruct Hin as (? & Heq & _). simplify_eq. }
      destruct Hin as [Hin|[]]. simplify_eq.
Qed.

Lemma Pipe_run_received calls (g : nat) (pkt : option P) : forall conn,
  In (g, RetReceive pkt None) (snd (Pipe_run calls conn)) ->
  (exists s, In (s, pkt) (sendq (pipe conn))) \/ exists s pick, In (CallSend s pkt pick) calls.
Proof.
  induction calls as [|c calls IH]; intros conn; [done|].
  rewrite Pipe_run_cons. cbn [snd]. intros [Hin|Hin]%in_app_or.
  - destruct (Pipe_step_received _ _ _ _ Hin) as [?|(s & pick & ->)]; [by left|].
    right. exists s, pick. apply in_eq.
  - destruct (IH _ Hin) as [[s Hs]|(s & pick & Hs)].
    + destruct (Pipe_step_sendq _ _ _ _ Hs) as [?|[pick ->]]; [left; by exists s|].
      right. exists s, pick. apply in_eq.
    + right. exists s, pick. by apply in_cons.
Qed.

(** X5. In every history of calls on a new pipe, a packet that a
    [Receive] returns without error is the packet some [Send] of the
    history was called with: the pipe invents no packet. *)
Theorem Pipe_received_was_sent calls (g : nat) (pkt : option P) :
  In (g, RetReceive pkt None) (snd (Pipe_run calls NewPipe)) ->
  exists s pick, In (CallSend s pkt pick) calls.
Proof.
  intros Hin. by destruct (Pipe_run_received _ _ _ _ Hin) as [[s []]|?].
Qed.

End PipeAccounting.

(** ** The executor: what a run asks and what it returns *)

Section ExecutorMore.
Context {P : Type} `{GenericPacketImpl P} {X : Type} {tables : UnicodeTables}
  {funcs : @Closures P X}.
Implicit Types (st : @State P X) (conn : @Conn P X) (a : @action P)
  (c : @ConnImpl P X) (w : @World X) (acts : list (@action P)).

Ltac turn_unfold :=
  unfold Test_case, events_of, conn_Send, conn_Receive, conn_Close, chan_recv,
    call_fn, time_Sleep, bind, ret, lift, log, outside, on_world, fmt_Errorf,
    GenericPacket_String.

Ltac turn_cases :=
  turn_unfold; simpl; repeat (case_match; simpl in *; simplify_eq); try done.

Ltac with_prefix p :=
  solve [exists p; eexists; split; [simpl; tauto|reflexivity]].

Ltac pick_prefix :=
  first
    [ with_prefix "error sending packet: "
    | with_prefix "expected to receive a packet but got error: "
    | with_prefix "expected packet of "
    | with_prefix "expected to skip over a received packet but got error: "
    | with_prefix "expected connection to close successfully but got error: "
    | with_prefix "expected EOF but got "
    | with_prefix "expected no packet but got " ].

Lemma Test_case_wraps conn a st e st' :
  Test_case conn a st = (Return (Some e), st') ->
  exists prefix rest, In prefix error_prefixes /\ e = errorString (prefix +:+ rest).
Proof.
  revert e st'. turn_cases; intros ? ? Heq; simplify_eq; pick_prefix.
Qed.

Lemma Test_range_wraps conn acts : forall st e st',
  Test_range conn acts st = (Return (Some e), st') ->
  exists prefix rest, In prefix error_prefixes /\ e = errorString (prefix +:+ rest).
Proof.
  induction acts as [|a rest IH]; intros st e st' Hrun; simpl in Hrun.
  - unfold ret in Hrun. simplify_eq.
  - unfold bind in Hrun.
    destruct (Test_case conn a st) as [[[e1|]|msg|] st1] eqn:Ha; simplify_eq.
    + unfold ret in Hrun. simplify_eq. by eapply Test_case_wraps.
    + by eapply IH.
Qed.

(** X6. Every error that [Test] returns is one that [Test] has made
    with [fmt.Errorf]: its message begins with one of the seven formats
    of the package, up to the first verb.  So the error of [Test] is
    never [io.EOF] itself, even when [io.EOF] is its cause. *)
Theorem Test_errors_begin_with_a_format (f : nat) conn st e :
  fst (Test f conn st) = Return (Some e) ->
  (exists prefix rest, In prefix error_prefixes /\ e = errorString (prefix +:+ rest))
  /\ e <> io_EOF.
Proof.
  intros He.
  assert (Hw : exists prefix rest, In prefix error_prefixes /\ e = errorString (prefix +:+ rest)).
  { unfold Test, bind, load_actions in He.
    destruct (heap st !! f) as [fl|]; [|done].
    destruct (Test_range conn (actions fl) st) as [r st'] eqn:Hrun. simpl in He. subst r.
    by eapply Test_range_wraps. }
  split; [done|]. by destruct Hw as (prefix & rest & _ & ->).
Qed.

Lemma Test_case_quiet_form a :
  quiet a = true ->
  exists m : M (@State P X) unit, forall conn, Test_case conn a = bind m (fun _ => ret None).
Proof.
  unfold quiet. intros Hq.
  destruct (kind a =? actionWait)%N eqn:Hw.
  { apply N.eqb_eq in Hw. exists (chan_recv (ch a)). intros conn.
    unfold Test_case. by rewrite Hw. }
  destruct (kind a =? actionRun)%N eqn:Hr.
  { apply N.eqb_eq in Hr. exists (call_fn (fn a)). intros conn.
    unfold Test_case. by rewrite Hr. }
  destruct (kind a =? actionDelay)%N eqn:Hd; [|done].
  apply N.eqb_eq in Hd. exists (time_Sleep (duration a)). intros conn.
  unfold Test_case. by rewrite Hd.
Qed.

Lemma Test_case_quiet conn conn' a st :
  quiet a = true ->
  Test_case conn a st = Test_case conn' a st
  /\ forall e, fst (Test_case conn a st) <> Return (Some e).
Proof.
  intros Hq. destruct (Test_case_quiet_form a Hq) as [m Hm].
  rewrite !Hm. split; [done|]. intros e. unfold bind, ret.
  by destruct (m st) as [[[]|msg|] st1].
Qed.

Lemma Test_range_quiet conn conn' acts : forall st,
  forallb quiet acts = true ->
  Test_range conn acts st = Test_range conn' acts st
  /\ forall e, fst (Test_range conn acts st) <> Return (Some e).
Proof.
  induction acts as [|a rest IH]; intros st Hq; simpl in *; [done|].
  apply andb_true_iff in Hq. destruct Hq as [Ha Hrest].
  destruct (Test_case_quiet conn conn' a st Ha) as [Heq Hne].
  unfold bind. rewrite <- Heq.
  destruct (Test_case conn a st) as [[[e|]|msg|] st1] eqn:Hturn; simpl in *.
  - by destruct (Hne e).
  - by apply IH.
  - done.
  - done.
Qed.

(** X7. A flow made only of [wait], [run] and [delay] actions never
    returns an error, and its run does not depend on the connection: any
    two connections, a nil one included, give the same result and the
    same final state. *)
Theorem quiet_flow_ignores_connection (f : nat) (fl : Flow) conn conn' st :
  heap st !! f = Some fl ->
  forallb quiet (actions fl) = true ->
  Test f conn st = Test f conn' st
  /\ Test f conn st = Test f None st
  /\ forall e, fst (Test f conn st) <> Return (Some e).
Proof.
  intros Hf Hq. unfold Test, bind, load_actions. rewrite Hf.
  split; [by apply Test_range_quiet|]. split; by apply Test_range_quiet.
Qed.

Lemma Test_case_delay conn a st :
  kind a = actionDelay ->
  Test_case conn a st
  = (Return None,
     mk_State (heap st)
       (mk_World (ext (world st)) (now (world st) + slept (duration a)) (chans (world st)))
       (trace st ++ [EvDelay (duration a)])).
Proof.
  intros Hk. unfold Test_case. rewrite Hk. simpl.
  unfold time_Sleep, bind, log, outside, on_world, sleep, ret, slept. simpl.
  destruct (duration a <=? 0); [|done]. by rewrite Z.add_0_r.
Qed.

(** X8. A flow made only of [delay] actions returns nil, asks nothing
    but the delays, in order, and ends when the clock has advanced by the
    sum of the positive durations; zero and negative durations take no
    time. *)
Theorem delay_flow_takes_the_sum (f : nat) (fl : Flow) conn st :
  heap st !! f = Some fl ->
  forallb (fun a => (kind a =? actionDelay)%N) (actions fl) = true ->
  Test f conn st
  = (Return None,
     mk_State (heap st)
       (mk_World (ext (world st)) (now (world st) + total_delay (actions fl)) (chans (world st)))
       (trace st ++ map (fun a => EvDelay (duration a)) (actions fl))).
Proof.
  intros Hf. rewrite (Test_unfold f conn st fl Hf). clear Hf.
  generalize (actions fl). clear fl. intros acts. revert st.
  induction acts as [|a rest IH]; intros st Hd; simpl in *.
  - unfold ret. rewrite Z.add_0_r, app_nil_r. by destruct st as [h [x n cs] t].
  - apply andb_true_iff in Hd. destruct Hd as [Ha Hrest]. apply N.eqb_eq in Ha.
    unfold bind. rewrite (Test_case_delay conn a st Ha), (IH _ Hrest). simpl.
    by rewrite Z.add_assoc, <- app_assoc.
Qed.

Lemma Test_case_asks conn a st :
  trace (snd (Test_case conn a st)) = trace st ++ events_of a
  \/ trace (snd (Test_case conn a st)) = trace st.
Proof. turn_cases; rewrite ?app_nil_r; auto. Qed.

Lemma Test_range_asks conn acts : forall st,
  exists k, trace (snd (Test_range conn acts st)) = trace st ++ flat_map events_of (take k acts).
Proof.
  induction acts as [|a rest IH]; intros st.
  - exists 0%nat. simpl. by rewrite app_nil_r.
  - simpl. unfold bind.
    destruct (Test_case conn a st) as [[[e|]|msg|] st1] eqn:Ha.
    + exists 1%nat. simpl. rewrite app_nil_r. apply (Test_case_trace _ _ _ _ _ Ha).
    + destruct (IH st1) as [k Hk]. exists (S k). simpl.
      by rewrite Hk, (Test_case_trace _ _ _ _ _ Ha), app_assoc.
    + destruct (Test_case_asks conn a st) as [Ht|Ht]; rewrite Ha in Ht; simpl in Ht.
      * exists 1%nat. simpl. by rewrite app_nil_r.
      * exists 0%nat. simpl. by rewrite app_nil_r.
    + destruct (Test_case_asks conn a st) as [Ht|Ht]; rewrite Ha in Ht; simpl in Ht.
      * exists 1%nat. simpl. by rewrite app_nil_r.
      * exists 0%nat. simpl. by rewrite app_nil_r.
Qed.

(** X9. However a run of [Test] ends, by a return, a panic or a call
    that never returns, the requests it has made are those of the first
    [k] actions of the flow, in order, for some [k]: no request is made
    out of turn, twice, or for an action after the one where the run
    stopped. *)
Theorem Test_requests_follow_script (f : nat) (fl : Flow) conn st :
  heap st !! f = Some fl ->
  exists k, (k <= length (actions fl))%nat
            /\ trace (snd (Test f conn st))
               = trace st ++ flat_map events_of (take k (actions fl)).
Proof.
  intros Hf. rewrite (Test_unfold f conn st fl Hf).
  destruct (Test_range_asks conn (actions fl) st) as [k Hk].
  exists (Nat.min k (length (actions fl))). split; [lia|].
  rewrite Hk. f_equal. f_equal.
  destruct (Nat.le_gt_cases k (length (actions fl))) as [Hle|Hgt].
  - by rewrite Nat.min_l.
  - rewrite Nat.min_r by lia. by rewrite !take_ge by lia.
Qed.

End ExecutorMore.

(** ** Building, then running *)

Section BuildAndRun.
Context {P : Type} `{GenericPacketImpl P} {X : Type} {tables : UnicodeTables}
  {funcs : @Closures P X}.
Implicit Types (st : @State P X) (conn : @Conn P X) (a : @action P)
  (c : @ConnImpl P X) (b : @BuilderCall P).

(** X11. A flow made by [New] and a chain of builder calls runs exactly
    the actions of those calls, in call order: [Test] on it is the loop
    over the list of the built actions.  Building touches neither the
    world nor the log of requests. *)
Theorem built_flow_runs_its_script (bs : list BuilderCall) conn st :
  let st1 := snd (bind New (fun f => chain f bs) st) in
  bind New (fun f => bind (chain f bs) (fun f' => Test f' conn)) st
  = Test_range conn (map built bs) st1
  /\ world st1 = world st
  /\ trace st1 = trace st.
Proof.
  intros st1.
  set (f := fresh (dom (heap st))).
  set (st0 := mk_State (<[f := mk_Flow []]> (heap st)) (world st) (trace st)).
  assert (Hf : heap st0 !! f = Some (mk_Flow [])) by apply lookup_insert_eq.
  pose proof (chain_appends f bs (mk_Flow []) st0 Hf) as Hchain.
  cbn [actions app] in Hchain.
  assert (Hbuild : bind New (fun f => chain f bs) st = chain f bs st0) by done.
  assert (Hall : bind New (fun f => bind (chain f bs) (fun f' => Test f' conn)) st
                 = bind (chain f bs) (fun f' => Test f' conn) st0) by done.
  unfold st1. rewrite Hall, Hbuild. unfold bind. rewrite Hchain. cbn [snd world trace].
  split; [|done].
  apply (Test_unfold f conn _ (mk_Flow (map built bs))). cbn [heap]. apply lookup_insert_eq.
Qed.

(** X12. On a nil flow (an address that holds no flow) every builder
    method panics with a nil dereference, and so does [Test], before any
    request is made; the state is left as it was. *)
Theorem nil_flow_panics (f : nat) conn st :
  heap st !! f = None ->
  (forall b, invoke f b st = (Panic nil_dereference, st))
  /\ Test f conn st = (Panic nil_dereference, st).
Proof.
  intros Hf. split.
  - intros b. destruct b; simpl;
      unfold Flow_Send, Flow_Receive, Flow_Skip, Flow_Wait, Flow_Run, Flow_Delay,
        Flow_Close, Flow_End, bind, add; by rewrite Hf.
  - unfold Test, bind, load_actions. by rewrite Hf.
Qed.

Lemma conn_Send_returns c st pkt r s' :
  Conn_Send c pkt (heap st, world st) = (r, s') ->
  conn_Send (Some c) pkt st = (r, mk_State (fst s') (snd s') (trace st ++ [EvSend pkt])).
Proof. intros Hr. unfold conn_Send, bind, log, outside. simpl. by rewrite Hr. Qed.

Lemma conn_Close_returns c st r s' :
  Conn_Close c (heap st, world st) = (r, s') ->
  conn_Close (Some c) st = (r, mk_State (fst s') (snd s') (trace st ++ [EvClose])).
Proof. intros Hr. unfold conn_Close, bind, log, outside. simpl. by rewrite Hr. Qed.

(** X13. A [send], [skip] or [close] action makes one request of the
    connection and succeeds exactly when that request returns no error;
    otherwise it fails with a message made of the prefix of its kind and
    the message of the error.  A [send] passes the packet of the action
    as it is; a [skip] ignores the packet it is given, a nil one
    included. *)
Theorem send_skip_close_wrap_errors conn c a st err s' :
  conn = Some c ->
  let verdict (prefix : string) : error :=
    match err with
    | Some e => fmt_Errorf (prefix +:+ Error_msg e)
    | None => None
    end in
  (kind a = actionSend ->
   Conn_Send c (packet a) (heap st, world st) = (Return err, s') ->
   Test_case conn a st
   = (Return (verdict "error sending packet: "),
      mk_State (fst s') (snd s') (trace st ++ [EvSend (packet a)])))
  /\ (kind a = actionSkip ->
      forall pkt, Conn_Receive c (heap st, world st) = (Return (pkt, err), s') ->
      Test_case conn a st
      = (Return (verdict "expected to skip over a received packet but got error: "),
         mk_State (fst s') (snd s') (trace st ++ [EvReceive])))
  /\ (kind a = actionClose ->
      Conn_Close c (heap st, world st) = (Return err, s') ->
      Test_case conn a st
      = (Return (verdict "expected connection to close successfully but got error: "),
         mk_State (fst s') (snd s') (trace st ++ [EvClose]))).
Proof.
  intros -> verdict. unfold verdict. split; [|split].
  - intros Hk Hr.
    assert (Hcase : Test_case (Some c) a
      = bind (conn_Send (Some c) (packet a)) (fun err0 =>
          match err0 with
          | Some e => ret (fmt_Errorf ("error sending packet: " +:+ Error_msg e))
          | None => ret None
          end)) by (unfold Test_case; by rewrite Hk).
    rewrite Hcase. unfold bind. rewrite (conn_Send_returns _ _ _ _ _ Hr). by destruct err.
  - intros Hk pkt Hr.
    assert (Hcase : Test_case (Some c) a
      = bind (conn_Receive (Some c)) (fun r =>
          match snd r with
          | Some e => ret (fmt_Errorf ("expected to skip over a received packet but got error: "
                                       +:+ Error_msg e))
          | None => ret None
          end)) by (unfold Test_case; by rewrite Hk).
    rewrite Hcase. unfold bind. rewrite (conn_Receive_returns _ _ _ _ Hr). by destruct err.
  - intros Hk Hr.
    assert (Hcase : Test_case (Some c) a
      = bind (conn_Close (Some c)) (fun err0 =>
          match err0 with
          | Some e => ret (fmt_Errorf ("expected connection to close successfully but got error: "
                                       +:+ Error_msg e))
          | None => ret None
          end)) by (unfold Test_case; by rewrite Hk).
    rewrite Hcase. unfold bind. rewrite (conn_Close_returns _ _ _ _ Hr). by destruct err.
Qed.

(** X14. A [receive] action panics with a nil dereference, after its
    request, when the connection returns a nil packet with a nil error,
    or when the packet the action expects is nil: the rendering is asked
    of a nil interface value. *)
Theorem receive_action_panics_on_nil_packet conn c a st pkt s' :
  kind a = actionReceive ->
  conn = Some c ->
  Conn_Receive c (heap st, world st) = (Return (pkt, None), s') ->
  packet a = None \/ pkt = None ->
  Test_case conn a st
  = (Panic nil_dereference, mk_State (fst s') (snd s') (trace st ++ [EvReceive])).
Proof.
  intros Hk -> Hr Hnil. rewrite (receive_case _ _ Hk). unfold bind at 1.
  rewrite (conn_Receive_returns _ _ _ _ Hr). cbn [snd fst].
  unfold bind, lift. destruct Hnil as [-> | ->]; simpl; [done|].
  by destruct (packet a).
Qed.

End BuildAndRun.


(** ** Flows on the pipe *)

Section PipeFlows.
Context {P : Type} `{GenericPacketImpl P} {tables : UnicodeTables}
  {funcs : @Closures P (@PipeWorld P)}.
Implicit Types (p : @Pipe P) (ps : list (@Call P)) (h : gmap nat (@Flow P))
  (t : list (@Event P)) (cs : gmap nat signal) (rest : list (@action P)).

Lemma ended_first (g : nat) (r : @Ret P) (out : list (nat * @Ret P)) :
  ended g ((g, r) :: out) = Some r.
Proof. unfold ended. simpl. by rewrite Nat.eqb_refl. Qed.

Lemma ended_other (g g' : nat) (r : @Ret P) (out : list (nat * @Ret P)) :
  g' <> g -> ended g ((g', r) :: out) = ended g out.
Proof. intros Hne. unfold ended. simpl. by destruct (Nat.eqb_spec g' g). Qed.

Lemma ended_skip (g : nat) (out1 out2 : list (nat * @Ret P)) :
  ~ In g (map fst out1) -> ended g (out1 ++ out2) = ended g out2.
Proof.
  induction out1 as [|[g' r] out1 IH]; intros Hnot; [done|].
  simpl in Hnot. change (((g', r) :: out1) ++ out2) with ((g', r) :: (out1 ++ out2)).
  rewrite ended_other.
  - apply IH. intros Hin. apply Hnot. by right.
  - intros ->. apply Hnot. by left.
Qed.

Lemma ended_Close (g : nat) p :
  close p = false ->
  ~ In g (map fst (sendq (pipe p))) -> ~ In g (recvq (pipe p)) ->
  Pipe_Close g p = (mk_Pipe (mk_hchan [] []) true, snd (Pipe_Close g p))
  /\ ended g (snd (Pipe_Close g p)) = Some (RetClose None).
Proof.
  intros Hc Hs Hr. unfold Pipe_Close. rewrite Hc. cbn [snd]. split; [done|].
  rewrite ended_skip; [rewrite ended_skip; [apply ended_first|]|].
  - by rewrite map_map, map_id.
  - by rewrite map_map.
Qed.

Lemma Pipe_call_ends (g : nat) (c : @Call P) (x : @PipeWorld P) (r : @Ret P) :
  ended g (snd (Pipe_step c (the_pipe x))) = Some r ->
  Pipe_call g c x = (Some r, mk_PipeWorld (fst (Pipe_step c (the_pipe x))) (peers x)).
Proof.
  intros He. unfold Pipe_call. destruct (Pipe_step c (the_pipe x)) as [conn out].
  simpl in He. by rewrite He.
Qed.

Lemma Pipe_call_parks (g : nat) (c : @Call P) (x : @PipeWorld P) :
  ended g (snd (Pipe_step c (the_pipe x))) = None ->
  Pipe_call g c x = await g (peers x) (fst (Pipe_step c (the_pipe x))).
Proof.
  intros He. unfold Pipe_call. destruct (Pipe_step c (the_pipe x)) as [conn out].
  simpl in He. by rewrite He.
Qed.

Lemma await_ends (g : nat) (c : @Call P) ps p (r : @Ret P) :
  ended g (snd (Pipe_step c p)) = Some r ->
  await g (c :: ps) p = (Some r, mk_PipeWorld (fst (Pipe_step c p)) ps).
Proof.
  intros He. simpl. destruct (Pipe_step c p) as [conn out]. simpl in He. by rewrite He.
Qed.

Lemma closed_pipe_calls (g pick : nat) (pkt : option P) :
  let closed := @mk_Pipe P (mk_hchan [] []) true in
  Pipe_Send g pkt pick closed = (closed, [(g, RetSend (Some (errors_New "already closed")))])
  /\ Pipe_Receive g pick closed = (closed, [(g, RetReceive None (Some io_EOF))])
  /\ Pipe_Close g closed = (closed, [(g, RetPanic "close of closed channel")]).
Proof.
  intros closed. split; [|split].
  - apply Pipe_Send_closed; [by intros _|done].
  - apply Pipe_Receive_closed; [by intros _|done].
  - by apply Pipe_Close_closed.
Qed.

(** What the methods of the pipe return to the goroutine of the flow. *)
Lemma Pipe_Conn_Close_open (g pick : nat) p ps (n : Z) cs h :
  close p = false ->
  ~ In g (map fst (sendq (pipe p))) -> ~ In g (recvq (pipe p)) ->
  Conn_Close (Pipe_Conn g pick) (h, mk_World (mk_PipeWorld p ps) n cs)
  = (Return None, (h, mk_World (mk_PipeWorld (mk_Pipe (mk_hchan [] []) true) ps) n cs)).
Proof.
  intros Hc Hs Hr. destruct (ended_Close g p Hc Hs Hr) as [Hclose Hend].
  cbn [Pipe_Conn Conn_Close]. unfold on_world. cbn [fst snd ext now chans].
  rewrite (Pipe_call_ends g (CallClose g) (mk_PipeWorld p ps) (RetClose None)) by done.
  cbn [Pipe_step the_pipe peers]. by rewrite Hclose.
Qed.

Lemma Pipe_Conn_closed (g pick : nat) ps (n : Z) cs h (pkt : option P) :
  let s := (h, mk_World (mk_PipeWorld (@mk_Pipe P (mk_hchan [] []) true) ps) n cs) in
  Conn_Send (Pipe_Conn g pick) pkt s = (Return (Some (errors_New "already closed")), s)
  /\ Conn_Receive (Pipe_Conn g pick) s = (Return (None, Some io_EOF), s)
  /\ Conn_Close (Pipe_Conn g pick) s = (Panic "close of closed channel", s).
Proof.
  intros s. destruct (closed_pipe_calls g pick pkt) as (Hsend & Hrecv & Hclose).
  unfold s. cbn [Pipe_Conn Conn_Send Conn_Receive Conn_Close]. unfold on_world.
  cbn [fst snd ext now chans].
  rewrite (Pipe_call_ends g (CallSend g pkt pick) _ (RetSend (Some (errors_New "already closed"))))
    by (cbn [Pipe_step the_pipe]; rewrite Hsend; apply ended_first).
  rewrite (Pipe_call_ends g (CallReceive g pick) _ (RetReceive None (Some io_EOF)))
    by (cbn [Pipe_step the_pipe]; rewrite Hrecv; apply ended_first).
  rewrite (Pipe_call_ends g (CallClose g) _ (RetPanic "close of closed channel"))
    by (cbn [Pipe_step the_pipe]; rewrite Hclose; apply ended_first).
  cbn [Pipe_step the_pipe peers]. by rewrite Hsend, Hrecv, Hclose.
Qed.

Lemma send_form (conn : @Conn P (@PipeWorld P)) (pkt : option P) :
  Test_case conn (built (BSend pkt))
  = bind (conn_Send conn pkt) (fun err0 =>
      match err0 with
      | Some e => ret (fmt_Errorf ("error sending packet: " +:+ Error_msg e))
      | None => ret None
      end).
Proof. reflexivity. Qed.

Lemma skip_form (conn : @Conn P (@PipeWorld P)) :
  Test_case conn (built BSkip)
  = bind (conn_Receive conn) (fun r =>
      match snd r with
      | Some e => ret (fmt_Errorf ("expected to skip over a received packet but got error: "
                                   +:+ Error_msg e))
      | None => ret None
      end).
Proof. reflexivity. Qed.

Lemma close_form (conn : @Conn P (@PipeWorld P)) :
  Test_case conn (built BClose)
  = bind (conn_Close conn) (fun err0 =>
      match err0 with
      | Some e => ret (fmt_Errorf ("expected connection to close successfully but got error: "
                                   +:+ Error_msg e))
      | None => ret None
      end).
Proof. reflexivity. Qed.

(** X15. A flow that runs on a pipe and closes it gets, from the action
    after the [close], what the closed pipe gives: a [send] fails with
    "error sending packet: already closed", a [receive] and a [skip]
    fail with their prefix followed by "EOF", a second [close] panics
    with "close of closed channel", and an [end] succeeds, so that the
    run goes on with the rest of the flow.  This holds whatever peers are
    parked on the pipe when it is closed, and whatever they do next. *)
Theorem flow_after_close_on_pipe (g pick : nat) p ps (n : Z) cs h t rest :
  close p = false ->
  ~ In g (map fst (sendq (pipe p))) ->
  ~ In g (recvq (pipe p)) ->
  let conn := Some (Pipe_Conn g pick) in
  let st := mk_State h (mk_World (mk_PipeWorld p ps) n cs) t in
  let closed := mk_PipeWorld (mk_Pipe (mk_hchan [] []) true) ps in
  (forall pkt,
      fst (Test_range conn (built BClose :: built (BSend pkt) :: rest) st)
      = Return (fmt_Errorf "error sending packet: already closed"))
  /\ (forall e,
      fst (Test_range conn (built BClose :: built (BReceive e) :: rest) st)
      = Return (fmt_Errorf "expected to receive a packet but got error: EOF"))
  /\ fst (Test_range conn (built BClose :: built BSkip :: rest) st)
     = Return (fmt_Errorf "expected to skip over a received packet but got error: EOF")
  /\ fst (Test_range conn (built BClose :: built BClose :: rest) st)
     = Panic "close of closed channel"
  /\ Test_range conn (built BClose :: built BEnd :: rest) st
     = Test_range conn rest (mk_State h (mk_World closed n cs) (t ++ [EvClose; EvReceive])).
Proof.
  intros Hc Hs Hr conn st closed.
  set (st1 := mk_State h (mk_World closed n cs) (t ++ [EvClose])).
  assert (Hfirst : Test_case conn (built BClose) st = (Return None, st1)).
  { rewrite close_form. unfold bind, conn.
    by rewrite (conn_Close_returns _ st _ _ (Pipe_Conn_Close_open g pick p ps n cs h Hc Hs Hr)). }
  assert (Hstep : forall a, Test_range conn (built BClose :: a :: rest) st
            = bind (Test_case conn a) (fun r =>
                match r with
                | Some e => ret (Some e)
                | None => Test_range conn rest
                end) st1).
  { intros a. cbn [Test_range]. unfold bind at 1. by rewrite Hfirst. }
  destruct (Pipe_Conn_closed g pick ps n cs h None) as (_ & Hrecv & Hclose).
  pose proof (conn_Receive_returns _ st1 _ _ Hrecv) as Hreceive.
  pose proof (conn_Close_returns _ st1 _ _ Hclose) as Hclose2.
  split; [|split; [|split; [|split]]].
  - intros pkt. rewrite Hstep.
    destruct (Pipe_Conn_closed g pick ps n cs h pkt) as (Hsend & _ & _).
    rewrite send_form. unfold bind, conn. by rewrite (conn_Send_returns _ st1 _ _ _ Hsend).
  - intros e. rewrite Hstep. rewrite (receive_case conn (built (BReceive e)) eq_refl).
    unfold bind, conn. by rewrite Hreceive.
  - rewrite Hstep, skip_form. unfold bind, conn. by rewrite Hreceive.
  - rewrite Hstep, close_form. unfold bind, conn. by rewrite Hclose2.
  - rewrite Hstep. rewrite (end_case conn (built BEnd) eq_refl).
    unfold bind, conn. rewrite Hreceive. cbn [snd fst Error_msg].
    change (Contains "EOF" "EOF") with true. cbn [negb]. unfold ret, st1.
    cbn [heap world trace]. by rewrite <- app_assoc.
Qed.

Lemma Pipe_Conn_Send_waits (g pick : nat) (pkt : option P) ps (n : Z) cs h :
  Conn_Send (Pipe_Conn g pick) pkt (h, mk_World (mk_PipeWorld NewPipe ps) n cs)
  = (match fst (await g ps (mk_Pipe (mk_hchan [(g, pkt)] []) false)) with
     | Some (RetSend err) => Return err
     | Some (RetPanic msg) => Panic msg
     | _ => Block
     end,
     (h, mk_World (snd (await g ps (mk_Pipe (mk_hchan [(g, pkt)] []) false))) n cs)).
Proof.
  cbn [Pipe_Conn Conn_Send]. unfold on_world. cbn [fst snd ext now chans].
  rewrite Pipe_call_parks; cbn [Pipe_step the_pipe peers]; unfold NewPipe;
    rewrite (Pipe_Send_parks []); [|done].
  cbn [fst app]. by destruct (await g ps _).
Qed.

Lemma Pipe_Conn_Receive_waits (g pick : nat) ps (n : Z) cs h :
  Conn_Receive (Pipe_Conn g pick) (h, mk_World (mk_PipeWorld (@NewPipe P) ps) n cs)
  = (match fst (await g ps (mk_Pipe (mk_hchan [] [g]) false)) with
     | Some (RetReceive pkt err) => Return (pkt, err)
     | Some (RetPanic msg) => Panic msg
     | _ => Block
     end,
     (h, mk_World (snd (await g ps (mk_Pipe (mk_hchan [] [g]) false))) n cs)).
Proof.
  cbn [Pipe_Conn Conn_Receive]. unfold on_world. cbn [fst snd ext now chans].
  rewrite Pipe_call_parks; cbn [Pipe_step the_pipe peers]; unfold NewPipe;
    rewrite (Pipe_Receive_parks []); [|done].
  cbn [fst app]. by destruct (await g ps _).
Qed.

Lemma send_on_new_pipe (g pick : nat) (pkt : option P) ps (n : Z) cs h t :
  Test_case (Some (Pipe_Conn g pick)) (built (BSend pkt))
    (mk_State h (mk_World (mk_PipeWorld NewPipe ps) n cs) t)
  = (match fst (await g ps (mk_Pipe (mk_hchan [(g, pkt)] []) false)) with
     | Some (RetSend None) => Return None
     | Some (RetSend (Some e)) => Return (fmt_Errorf ("error sending packet: " +:+ Error_msg e))
     | Some (RetPanic msg) => Panic msg
     | _ => Block
     end,
     mk_State h (mk_World (snd (await g ps (mk_Pipe (mk_hchan [(g, pkt)] []) false))) n cs)
       (t ++ [EvSend pkt])).
Proof.
  rewrite send_form. unfold bind.
  rewrite (conn_Send_returns (Pipe_Conn g pick)
             (mk_State h (mk_World (mk_PipeWorld NewPipe ps) n cs) t) pkt _ _
             (Pipe_Conn_Send_waits g pick pkt ps n cs h)).
  cbn [fst snd]. destruct (fst (await g ps _)) as [[[e|]| | |]|]; reflexivity.
Qed.

Lemma skip_on_new_pipe (g pick : nat) ps (n : Z) cs h t :
  Test_case (Some (Pipe_Conn g pick)) (built BSkip)
    (mk_State h (mk_World (mk_PipeWorld (@NewPipe P) ps) n cs) t)
  = (match fst (await g ps (mk_Pipe (mk_hchan [] [g]) false)) with
     | Some (RetReceive _ None) => Return None
     | Some (RetReceive _ (Some e)) =>
         Return (fmt_Errorf ("expected to skip over a received packet but got error: "
                             +:+ Error_msg e))
     | Some (RetPanic msg) => Panic msg
     | _ => Block
     end,
     mk_State h (mk_World (snd (await g ps (mk_Pipe (mk_hchan [] [g]) false))) n cs)
       (t ++ [EvReceive])).
Proof.
  rewrite skip_form. unfold bind.
  rewrite (conn_Receive_returns (Pipe_Conn g pick)
             (mk_State h (mk_World (mk_PipeWorld NewPipe ps) n cs) t) _ _
             (Pipe_Conn_Receive_waits g pick ps n cs h)).
  cbn [fst snd]. destruct (fst (await g ps _)) as [[|pkt [e|]| |]|]; reflexivity.
Qed.

(** X16. On a new pipe a [send] action waits for a peer.  If no other
    goroutine ever calls the pipe, the action never returns: [Send] has
    no timeout.  If the next call of a peer is a [Receive], the action
    succeeds and the pipe is as new again; if it is a [Close], the action
    fails with "error sending packet: already closed".  Likewise a
    [skip] action never returns if nobody calls, succeeds if the next
    call of a peer is a [Send], and fails with its prefix followed by
    "EOF" if it is a [Close]. *)
Theorem actions_wait_for_a_peer (g pick : nat) (pkt : option P) ps (n : Z) cs h t :
  let conn := Some (Pipe_Conn g pick) in
  let st (calls : list (@Call P)) (p : @Pipe P) (events : list (@Event P)) :=
    mk_State h (mk_World (mk_PipeWorld p calls) n cs) (t ++ events) in
  let closed := mk_Pipe (mk_hchan [] []) true in
  fst (Test_case conn (built (BSend pkt)) (st [] NewPipe [])) = Block
  /\ (forall r rpick, r <> g ->
      Test_case conn (built (BSend pkt)) (st (CallReceive r rpick :: ps) NewPipe [])
      = (Return None, st ps NewPipe [EvSend pkt]))
  /\ (forall c,
      Test_case conn (built (BSend pkt)) (st (CallClose c :: ps) NewPipe [])
      = (Return (fmt_Errorf "error sending packet: already closed"),
         st ps closed [EvSend pkt]))
  /\ fst (Test_case conn (built BSkip) (st [] NewPipe [])) = Block
  /\ (forall s spkt spick, s <> g ->
      Test_case conn (built BSkip) (st (CallSend s spkt spick :: ps) NewPipe [])
      = (Return None, st ps NewPipe [EvReceive]))
  /\ (forall c,
      Test_case conn (built BSkip) (st (CallClose c :: ps) NewPipe [])
      = (Return (fmt_Errorf "expected to skip over a received packet but got error: EOF"),
         st ps closed [EvReceive])).
Proof.
  intros conn st closed. unfold st, conn. rewrite !app_nil_r.
  split; [|split; [|split; [|split; [|split]]]].
  - by rewrite send_on_new_pipe.
  - intros r rpick Hne. rewrite send_on_new_pipe.
    rewrite (await_ends g (CallReceive r rpick) ps _ (RetSend None)).
    + cbn [Pipe_step]. by rewrite Pipe_Receive_takes.
    + cbn [Pipe_step]. rewrite Pipe_Receive_takes. cbn [snd].
      rewrite ended_other by done. apply ended_first.
  - intros c. rewrite send_on_new_pipe.
    by rewrite (await_ends g (CallClose c) ps _ (RetSend (Some (errors_New "already closed"))))
      by apply ended_first.
  - by rewrite skip_on_new_pipe.
  - intros s spkt spick Hne. rewrite skip_on_new_pipe.
    rewrite (await_ends g (CallSend s spkt spick) ps _ (RetReceive spkt None)).
    + cbn [Pipe_step]. by rewrite Pipe_Send_gives.
    + cbn [Pipe_step]. rewrite Pipe_Send_gives. cbn [snd].
      rewrite ended_other by done. apply ended_first.
  - intros c. rewrite skip_on_new_pipe.
    by rewrite (await_ends g (CallClose c) ps _ (RetReceive None (Some io_EOF)))
      by apply ended_first.
Qed.

End PipeFlows.

(** ** The asynchronous executor, in general *)

Section AsyncOutcomes.
Context {P : Type} `{GenericPacketImpl P} {X : Type} {tables : UnicodeTables}
  {funcs : @Closures P X}.
Implicit Types (st : @State P X) (conn : @Conn P X).

(** X17. What the channel returned by [TestAsync] gets depends on how
    [Test] ends.  If [Test] returns, exactly one value is written: the
    result of [Test], or the timeout error, and the timeout error only if
    the deadline had passed when [Test] returned; in particular a [Test]
    that returns before the deadline has its result delivered as it is.
    If [Test] panics or never returns, nothing is written. *)
Theorem TestAsync_outcomes (f : nat) conn (timeout : Z) (pick : nat) st :
  match Test f conn st with
  | (Return v, st') =>
      exists x,
        TestAsync f conn timeout pick st = (Return (mk_bchan 1 [x]), st')
        /\ (x = v
            \/ (x = Some timeout_error /\ now (world st) + timeout <= now (world st')))
        /\ (now (world st') < now (world st) + timeout -> x = v)
  | (Panic msg, st') => TestAsync f conn timeout pick st = (Panic msg, st')
  | (Block, st') => TestAsync f conn timeout pick st = (Block, st')
  end.
Proof.
  destruct (Test f conn st) as [[v|msg|] st'] eqn:Ht.
  - destruct (Z.le_gt_cases (now (world st) + timeout) (now (world st'))) as [Hlate|Hearly].
    + rewrite (TestAsync_late f conn timeout pick st v st' Ht Hlate).
      eexists. split; [done|]. split.
      * destruct (Nat.even pick); auto.
      * intros Hlt. lia.
    + rewrite (TestAsync_early f conn timeout pick st v st' Ht Hearly).
      exists v. split; [done|]. split; [by left|done].
  - unfold TestAsync, TestAsync_goroutine, bind. by rewrite Ht.
  - by apply TestAsync_blocked.
Qed.

End AsyncOutcomes.

(** * The further statements at sample inputs *)

(** A receive that got CONNECT: some send of the history offered it. *)
Lemma Pipe_received_was_sent_witness :
  let calls := [CallSend 1 (Some "CONNECT") 0; CallReceive 2 0] in
  In (2%nat, RetReceive (Some "CONNECT") None) (snd (Pipe_run calls NewPipe))
  /\ exists s pick, In (CallSend s (Some "CONNECT") pick) calls.
Proof.
  intros calls.
  assert (Hin : In (2%nat, RetReceive (Some "CONNECT") None) (snd (Pipe_run calls NewPipe)))
    by (left; reflexivity).
  split; [exact Hin|]. exact (Pipe_received_was_sent calls 2%nat (Some "CONNECT") Hin).
Defined.

(** A flow that closes the pipe and then sends: the error of [Test]
    begins with the format of the [send] action. *)
Lemma Test_errors_begin_with_a_format_witness :
  let acts := [built BClose; built (BSend (Some "CONNECT"))] in
  let st := one_flow acts NewPipe in
  let conn := Some (Pipe_Conn 0 0) in
  let e := errorString "error sending packet: already closed" in
  fst (Test 0%nat conn st) = Return (Some e)
  /\ (exists prefix rest, In prefix error_prefixes /\ e = errorString (prefix +:+ rest))
  /\ e <> io_EOF.
Proof.
  intros acts st conn e.
  assert (He : fst (Test 0%nat conn st) = Return (Some e)) by (vm_compute; reflexivity).
  split; [exact He|]. exact (Test_errors_begin_with_a_format 0%nat conn st e He).
Defined.

(** A delay, then a run of a callback that does nothing, with and
    without a connection. *)
Lemma quiet_flow_ignores_connection_witness :
  let acts := [built (BDelay 5); built (BRun (Some 0%nat))] in
  let st := unit_state acts in
  let conn := Some (fixed_conn (None, None)) in
  heap st !! 0%nat = Some (mk_Flow acts)
  /\ forallb quiet acts = true
  /\ Test 0%nat conn st = Test 0%nat None st
  /\ forall e, fst (Test 0%nat conn st) <> Return (Some e).
Proof.
  intros acts st conn. split; [reflexivity|]. split; [reflexivity|].
  destruct (quiet_flow_ignores_connection 0%nat (mk_Flow acts) conn None st eq_refl eq_refl)
    as (Hsame & _ & Hnever).
  split; [exact Hsame|exact Hnever].
Defined.

(** Three delays, one of them negative. *)
Lemma delay_flow_takes_the_sum_witness :
  let acts := [built (BDelay 5); built (BDelay (-3)); built (BDelay 7)] in
  let st := unit_state acts in
  heap st !! 0%nat = Some (mk_Flow acts)
  /\ Test 0%nat None st
     = (Return None,
        mk_State (heap st) (mk_World tt 12 ∅) [EvDelay 5; EvDelay (-3); EvDelay 7]).
Proof.
  intros acts st. split; [reflexivity|].
  exact (delay_flow_takes_the_sum 0%nat (mk_Flow acts) None st eq_refl eq_refl).
Defined.

(** A flow that fails at its second action, a [send] on the pipe it has
    just closed. *)
Lemma Test_requests_follow_script_witness :
  let acts := [built BClose; built (BSend (Some "CONNECT")); built BEnd] in
  let st := one_flow acts NewPipe in
  heap st !! 0%nat = Some (mk_Flow acts)
  /\ exists k, (k <= length acts)%nat
               /\ trace (snd (Test 0%nat (Some (Pipe_Conn 0 0)) st))
                  = trace st ++ flat_map events_of (take k acts).
Proof.
  intros acts st. split; [reflexivity|].
  exact (Test_requests_follow_script 0%nat (mk_Flow acts) (Some (Pipe_Conn 0 0)) st eq_refl).
Defined.

(** The address [7] holds no flow. *)
Lemma nil_flow_panics_witness :
  let st := unit_state [] in
  heap st !! 7%nat = None
  /\ (forall b, invoke 7%nat b st = (Panic nil_dereference, st))
  /\ Test 7%nat None st = (Panic nil_dereference, st).
Proof.
  intros st. split; [reflexivity|].
  exact (nil_flow_panics 7%nat None st eq_refl).
Defined.

(** A [send] on a pipe that has been closed. *)
Lemma send_skip_close_wrap_errors_witness :
  let closed := fst (Pipe_Close 1 NewPipe) in
  let c := Pipe_Conn 0 0 in
  let a := built (BSend (Some "CONNECT")) in
  let st := one_flow [] closed in
  Test_case (Some c) a st
  = (Return (fmt_Errorf "error sending packet: already closed"),
     mk_State (heap st) (pipe_world closed) (trace st ++ [EvSend (Some "CONNECT")])).
Proof.
  intros closed c a st.
  exact (proj1 (send_skip_close_wrap_errors (Some c) c a st
                  (Some (errors_New "already closed")) (heap st, pipe_world closed) eq_refl)
           eq_refl eq_refl).
Defined.

(** A peer has sent a nil packet. *)
Lemma receive_action_panics_on_nil_packet_witness :
  let p := fst (Pipe_Send 1 None 0 (@NewPipe string)) in
  let c := Pipe_Conn 0 0 in
  let a := built (BReceive (Some "CONNACK")) in
  let st := one_flow [] p in
  Test_case (Some c) a st
  = (Panic nil_dereference, mk_State (heap st) (pipe_world NewPipe) (trace st ++ [EvReceive])).
Proof.
  intros p c a st.
  apply (receive_action_panics_on_nil_packet (Some c) c a st None (heap st, pipe_world NewPipe)
           eq_refl eq_refl eq_refl).
  right. reflexivity.
Defined.

(** A flow closes a pipe on which a peer is parked in [Send]. *)
Lemma flow_after_close_on_pipe_witness :
  let p := pipe_offering "PUBLISH" in
  let conn := Some (Pipe_Conn 0 0) in
  let st := mk_State ∅ (pipe_world p) [] in
  close p = false
  /\ fst (Test_range conn [built BClose; built (BSend (Some "CONNECT"))] st)
     = Return (fmt_Errorf "error sending packet: already closed")
  /\ fst (Test_range conn [built BClose; built BClose] st) = Panic "close of closed channel"
  /\ fst (Test_range conn [built BClose; built BEnd] st) = Return None.
Proof.
  intros p conn st.
  assert (Hs : ~ In 0%nat (map fst (sendq (pipe p)))) by (intros [Heq|[]]; discriminate Heq).
  assert (Hr : ~ In 0%nat (recvq (pipe p))) by (intros []).
  destruct (flow_after_close_on_pipe 0 0 p [] 0 ∅ ∅ [] [] eq_refl Hs Hr)
    as (Hsend & _ & _ & Hclose & Hend).
  split; [reflexivity|]. split; [exact (Hsend (Some "CONNECT"))|]. split; [exact Hclose|].
  unfold st, conn, pipe_world. rewrite Hend. reflexivity.
Defined.
